(** * Snake: the tick / state engine of [src/app/page.tsx]

    A shallow embedding of the game logic of the page component: the
    React state cells become the fields of one record, the handlers
    become functions on that record, [Math.random] becomes an oracle
    with a cursor, and [localStorage] a finite map with an operation
    log. *)

From stdpp Require Import gmap strings list pretty.
From Stdlib Require Import ZArith Lia Ascii QArith Qround.

Local Open Scope Z_scope.

(** ** Data model (lines 5-12) *)

(** [type GridCell = { x: number; y: number }]; [cell_x] and [cell_y]
    are the fields [x] and [y].  Coordinates are the integer-valued JS
    numbers the program computes with. *)
Record GridCell : Type := Cell { cell_x : Z; cell_y : Z }.

(** [type Direction = "up" | "down" | "left" | "right"]. *)
Inductive Direction : Type := Up | Down | Left | Right.

(** [type GameStatus = "idle" | "running" | "over"]. *)
Inductive GameStatus : Type := Idle | Running | Over.

#[global] Instance GridCell_eq_dec : EqDecision GridCell.
Proof. solve_decision. Defined.
#[global] Instance Direction_eq_dec : EqDecision Direction.
Proof. solve_decision. Defined.
#[global] Instance GameStatus_eq_dec : EqDecision GameStatus.
Proof. solve_decision. Defined.

Definition BOARD_SIZE : Z := 20.
Definition LOCAL_STORAGE_KEY : string := "snakeHighScore".

(** The template literal [`${x},${y}`] used as the element of every
    [Set<string>] of occupied cells. *)
Definition cellKey (x y : Z) : string := pretty x +:+ "," +:+ pretty y.

Definition keyOf (c : GridCell) : string := cellKey (cell_x c) (cell_y c).

(** [new Set(cells.map((c) => `${c.x},${c.y}`))]. *)
Definition occupiedSet (cells : list GridCell) : gset string :=
  list_to_set (keyOf <$> cells).

(** ** The external collaborators *)

(** [localStorage]: the stored items, and the log of the mutating calls
    made so far (most recent first). *)
Inductive StorageOp : Type :=
  | SetItem (key value : string)
  | RemoveItem (key : string).

Record Storage : Type := MkStorage {
  items : gmap string string;
  ops : list StorageOp
}.

Definition setItem (key value : string) (st : Storage) : Storage :=
  {| items := <[key := value]> (items st); ops := SetItem key value :: ops st |}.

Definition removeItem (key : string) (st : Storage) : Storage :=
  {| items := delete key (items st); ops := RemoveItem key :: ops st |}.

(** ** Component state (lines 24-35) *)

Record State : Type := MkState {
  snakeSegments : list GridCell;          (* tail first, head last *)
  movementDirection : Direction;
  foodCell : GridCell;
  gameStatus : GameStatus;
  score : Z;
  highScore : Z;
  pendingDirection : option Direction;    (* pendingDirectionRef.current *)
  localStorage : Storage;
  randomCalls : nat                       (* calls of Math.random so far *)
}.

Definition setSnakeSegments (v : list GridCell) (s : State) : State :=
  MkState v (movementDirection s) (foodCell s) (gameStatus s) (score s)
    (highScore s) (pendingDirection s) (localStorage s) (randomCalls s).
Definition setMovementDirection (v : Direction) (s : State) : State :=
  MkState (snakeSegments s) v (foodCell s) (gameStatus s) (score s)
    (highScore s) (pendingDirection s) (localStorage s) (randomCalls s).
Definition setFoodCell (v : GridCell) (s : State) : State :=
  MkState (snakeSegments s) (movementDirection s) v (gameStatus s) (score s)
    (highScore s) (pendingDirection s) (localStorage s) (randomCalls s).
Definition setGameStatus (v : GameStatus) (s : State) : State :=
  MkState (snakeSegments s) (movementDirection s) (foodCell s) v (score s)
    (highScore s) (pendingDirection s) (localStorage s) (randomCalls s).
Definition setScore (v : Z) (s : State) : State :=
  MkState (snakeSegments s) (movementDirection s) (foodCell s) (gameStatus s) v
    (highScore s) (pendingDirection s) (localStorage s) (randomCalls s).
Definition setHighScore (v : Z) (s : State) : State :=
  MkState (snakeSegments s) (movementDirection s) (foodCell s) (gameStatus s)
    (score s) v (pendingDirection s) (localStorage s) (randomCalls s).
(** The assignment [pendingDirectionRef.current = v]. *)
Definition setPendingDirectionRef (v : option Direction) (s : State) : State :=
  MkState (snakeSegments s) (movementDirection s) (foodCell s) (gameStatus s)
    (score s) (highScore s) v (localStorage s) (randomCalls s).
Definition setLocalStorage (v : Storage) (s : State) : State :=
  MkState (snakeSegments s) (movementDirection s) (foodCell s) (gameStatus s)
    (score s) (highScore s) (pendingDirection s) v (randomCalls s).
Definition setRandomCalls (v : nat) (s : State) : State :=
  MkState (snakeSegments s) (movementDirection s) (foodCell s) (gameStatus s)
    (score s) (highScore s) (pendingDirection s) (localStorage s) v.

(** The snake both [useState] and [startGame] build: the cell left of
    the centre, then the centre. *)
Definition initialSnake : list GridCell :=
  [ Cell (BOARD_SIZE / 2 - 1) (BOARD_SIZE / 2);
    Cell (BOARD_SIZE / 2) (BOARD_SIZE / 2) ].

(** The state of the first render ([useState] initialisers), over a
    given storage. *)
Definition initialState (st : Storage) : State :=
  {| snakeSegments := initialSnake;
     movementDirection := Right;
     foodCell := Cell 5 5;
     gameStatus := Idle;
     score := 0;
     highScore := 0;
     pendingDirection := None;
     localStorage := st;
     randomCalls := 0 |}.

(** ** The engine *)

Section Engine.

(** The oracle: [rnd k] is the value of the [k]-th evaluation of
    [Math.floor(Math.random() * BOARD_SIZE)] (counted from 0).  The
    floating-point multiplication is not modelled; for a draw of
    [Math.random] in [0,1) the value lies in [0, BOARD_SIZE), which
    theorems that need it assume as [rnd_in_range]. *)
Variable rnd : nat → Z.

Definition rnd_in_range : Prop := ∀ k, 0 ≤ rnd k < BOARD_SIZE.

(** [getRandomEmptyCell] (lines 14-21).  The [while (true)] loop has no
    bound of its own: [fuel] bounds the number of iterations tried and
    [None] says that none of them returned.  [k] is the number of draws
    made before the call; the result carries the number made after. *)
Fixpoint getRandomEmptyCell (fuel : nat) (occupied : gset string) (k : nat)
  : option (GridCell * nat) :=
  match fuel with
  | O => None
  | S fuel' =>
      let x := rnd k in
      let y := rnd (S k) in
      let key := cellKey x y in
      if decide (key ∉ occupied) then Some (Cell x y, S (S k))
      else getRandomEmptyCell fuel' occupied (S (S k))
  end.

(** [startGame] (lines 52-63). *)
Definition startGame (fuel : nat) (s : State) : option State :=
  let occupied := occupiedSet initialSnake in
  '(food, k) ← getRandomEmptyCell fuel occupied (randomCalls s);
  Some (setGameStatus Running
         (setScore 0
           (setFoodCell food
             (setRandomCalls k
               (setMovementDirection Right
                 (setSnakeSegments initialSnake s)))))).

(** [endGame] (lines 65-71).  The callback closes over [score] and
    [highScore] of the render [r] it was created in and updates the
    state [s] under construction. *)
Definition endGameIn (r s : State) : State :=
  let s := setGameStatus Over s in
  if decide (score r > highScore r) then
    setLocalStorage (setItem LOCAL_STORAGE_KEY (pretty (score r)) (localStorage s))
      (setHighScore (score r) s)
  else s.

Definition endGame (s : State) : State := endGameIn s s.

(** Lines 77-81: a buffered direction is handed to
    [setMovementDirection] and the buffer is cleared. *)
Definition commitPending (s : State) : State :=
  match pendingDirection s with
  | Some d => setPendingDirectionRef None (setMovementDirection d s)
  | None => s
  end.

(** Lines 84-88: [nextHead], by four independent [if]s on the
    direction. *)
Definition moveHead (d : Direction) (head : GridCell) : GridCell :=
  let nextHead := head in
  let nextHead :=
    if decide (d = Up) then Cell (cell_x head) (cell_y head - 1) else nextHead in
  let nextHead :=
    if decide (d = Down) then Cell (cell_x head) (cell_y head + 1) else nextHead in
  let nextHead :=
    if decide (d = Left) then Cell (cell_x head - 1) (cell_y head) else nextHead in
  let nextHead :=
    if decide (d = Right) then Cell (cell_x head + 1) (cell_y head) else nextHead in
  nextHead.

(** Lines 91-96. *)
Definition hitsWall (c : GridCell) : bool :=
  bool_decide (cell_x c < 0) || bool_decide (cell_y c < 0)
  || bool_decide (cell_x c >= BOARD_SIZE) || bool_decide (cell_y c >= BOARD_SIZE).

(** [step] (lines 73-120).  [r] is the render whose [movementDirection],
    [foodCell] and [endGame] the callback closed over; the state setters
    called on the way act on the state under construction.  The timer
    always runs the [step] of the latest render, so [r] is the state the
    tick starts from. *)
Definition step (fuel : nat) (r : State) : option State :=
  let currentSnake := snakeSegments r in
  match last currentSnake with
  | None => Some r
  | Some head =>
      let s := commitPending r in
      let nextHead := moveHead (movementDirection r) head in
      if hitsWall nextHead then Some (endGameIn r s)
      else
        let occupied := occupiedSet currentSnake in
        if decide (keyOf nextHead ∈ occupied) then Some (endGameIn r s)
        else
          let willEat :=
            bool_decide (cell_x nextHead = cell_x (foodCell r))
            && bool_decide (cell_y nextHead = cell_y (foodCell r)) in
          let newSnake := currentSnake ++ [nextHead] in
          let newSnake := if negb willEat then tail newSnake else newSnake in
          if willEat then
            let s := setScore (score s + 1) s in
            let newOccupied := occupiedSet newSnake in
            '(food, k) ← getRandomEmptyCell fuel newOccupied (randomCalls s);
            Some (setSnakeSegments newSnake
                   (setFoodCell food (setRandomCalls k s)))
          else Some (setSnakeSegments newSnake s)
  end.

(** [speedMs] (lines 123-127). *)
Definition speedMs (score : Z) : Z :=
  let base := 140 in
  let speedup := Z.min 80 (score / 5 * 10) in
  Z.max 60 (base - speedup).

(** The effect of lines 129-142, run after every render: an interval
    calling [step] every [speedMs] exists exactly while the status is
    running; otherwise it is cleared. *)
Definition scheduledInterval (s : State) : option Z :=
  if decide (gameStatus s ≠ Running) then None else Some (speedMs (score s)).

(** One firing of the timer: [step] if an interval is scheduled, and
    nothing at all otherwise. *)
Definition timerFires (fuel : nat) (s : State) : option State :=
  match scheduledInterval s with
  | Some _ => step fuel s
  | None => Some s
  end.

(** Lines 161-166 and 177-182: the 180-degree test. *)
Definition isReversal (current next : Direction) : bool :=
  bool_decide (current = Up ∧ next = Down)
  || bool_decide (current = Down ∧ next = Up)
  || bool_decide (current = Left ∧ next = Right)
  || bool_decide (current = Right ∧ next = Left).

(** [setDirectionImmediate] (lines 175-186). *)
Definition setDirectionImmediate (next : Direction) (s : State) : State :=
  if decide (gameStatus s ≠ Running) then s
  else if isReversal (movementDirection s) next then s
  else setPendingDirectionRef (Some next) s.

(** The "End Game" button (line 237). *)
Definition endGameButton (s : State) : State := setGameStatus Over s.

(** The "Reset Best" button (line 239). *)
Definition resetBest (s : State) : State :=
  setLocalStorage (removeItem LOCAL_STORAGE_KEY (localStorage s))
    (setHighScore 0 s).

End Engine.

(** ** Auxiliary notions used in the statements *)

(** Whether a string holds a comma (the separator of a cell key). *)
Fixpoint hasComma (s : string) : bool :=
  match s with
  | EmptyString => false
  | String c s' => bool_decide (c = ","%char) || hasComma s'
  end.

(** The board [0,N) x [0,N). *)
Definition inBoard (c : GridCell) : Prop :=
  0 ≤ cell_x c < BOARD_SIZE ∧ 0 ≤ cell_y c < BOARD_SIZE.

#[global] Instance inBoard_dec c : Decision (inBoard c).
Proof. unfold inBoard. apply _. Defined.

(** The cell the coming tick tries to enter: the head moved one cell in
    the direction of the current render. *)
Definition nextHeadOf (r : State) : option GridCell :=
  moveHead (movementDirection r) <$> last (snakeSegments r).

Section Draws.

Variable rnd : nat → Z.

(** The cell drawn by iteration [j] (from 0) of a call that starts after
    [k] draws. *)
Definition drawnCell (k j : nat) : GridCell :=
  Cell (rnd (k + 2 * j)%nat) (rnd (S (k + 2 * j))%nat).

(** Iteration [j] is the first whose cell is not occupied. *)
Definition firstFree (occupied : gset string) (k j : nat) : Prop :=
  (keyOf (drawnCell k j) ∉ occupied) ∧
  (∀ i, (i < j)%nat → keyOf (drawnCell k i) ∈ occupied).

End Draws.

(** ** The event loop

    What the page lets happen between two renders: the interval fires,
    a direction control is used, or one of the buttons is clicked.  The
    start button is rendered only while the game is not running and the
    end button only while it is (lines 232-238). *)

Inductive Event : Type :=
  | Tick
  | Press (next : Direction)
  | Start
  | EndButton
  | ResetButton.

Definition fire (rnd : nat → Z) (fuel : nat) (e : Event) (s : State)
  : option State :=
  match e with
  | Tick => timerFires rnd fuel s
  | Press next => Some (setDirectionImmediate next s)
  | Start =>
      if decide (gameStatus s ≠ Running) then startGame rnd fuel s else Some s
  | EndButton =>
      if decide (gameStatus s ≠ Running) then Some s else Some (endGameButton s)
  | ResetButton => Some (resetBest s)
  end.

Fixpoint run (rnd : nat → Z) (fuel : nat) (es : list Event) (s : State)
  : option State :=
  match es with
  | [] => Some s
  | e :: es' => s' ← fire rnd fuel e s; run rnd fuel es' s'
  end.

(** The states of a game: whatever [startGame] produces, from any
    earlier state of the page, and whatever the events make of it. *)
Inductive reachable (rnd : nat → Z) : State → Prop :=
  | reachable_start fuel s0 s :
      startGame rnd fuel s0 = Some s → reachable rnd s
  | reachable_fire fuel e s s' :
      reachable rnd s → fire rnd fuel e s = Some s' → reachable rnd s'.

(** ** The specification's wording, for comparison *)

(** "The exact opposite" of a direction. *)
Definition opposite (d : Direction) : Direction :=
  match d with Up => Down | Down => Up | Left => Right | Right => Left end.

(** [interval = max(60, 140 - min(80, floor(score/5)*10))], the quotient
    being the rational one. *)
Definition currentTickInterval (score : Z) : Z :=
  Z.max 60 (140 - Z.min 80 (Qfloor (inject_Z score / 5) * 10)).

(** ** Sample states *)

Definition emptyStorage : Storage := MkStorage ∅ [].

(** A running game with the given snake, direction, food and buffer. *)
Definition gameWith (snake : list GridCell) (d : Direction) (food : GridCell)
    (pending : option Direction) : State :=
  {| snakeSegments := snake;
     movementDirection := d;
     foodCell := food;
     gameStatus := Running;
     score := 0;
     highScore := 0;
     pendingDirection := pending;
     localStorage := emptyStorage;
     randomCalls := 2 |}.

(** A running game right after a start. *)
Definition freshGame (food : GridCell) (pending : option Direction) : State :=
  gameWith initialSnake Right food pending.

(** A running game with the given score and best score. *)
Definition scoredGame (sc best : Z) : State :=
  {| snakeSegments := initialSnake;
     movementDirection := Right;
     foodCell := Cell 5 5;
     gameStatus := Running;
     score := sc;
     highScore := best;
     pendingDirection := None;
     localStorage := emptyStorage;
     randomCalls := 2 |}.

(** An oracle that always draws 0. *)
Definition zeros : nat → Z := λ _, 0.

(** ** The invariant of a game *)

Definition snakeInvariant (s : State) : Prop :=
  (∀ c, c ∈ snakeSegments s → inBoard c) ∧
  NoDup (snakeSegments s) ∧
  (foodCell s ∉ snakeSegments s).

(** ** A game that fills the board

    The board walked row by row, even rows from left to right and odd
    rows from right to left: [pathCell 0 = (0,0)], [pathCell 19 = (19,0)],
    [pathCell 20 = (19,1)], ..., [pathCell 399 = (0,19)]. *)
Definition pathCell (i : nat) : GridCell :=
  let i := Z.of_nat i mod (BOARD_SIZE * BOARD_SIZE) in
  let y := i / BOARD_SIZE in
  let x := i mod BOARD_SIZE in
  Cell (if Z.even y then x else BOARD_SIZE - 1 - x) y.

Definition pathSnake (n : nat) : list GridCell := pathCell <$> seq 0 n.

(** An oracle whose draws always name the cell ahead of a snake lying
    on that walk: the draws of [startGame] name [pathCell 2], the next
    two [pathCell 3], and so on. *)
Definition pathRnd (k : nat) : Z :=
  let c := pathCell (k / 2 + 2) in
  if Nat.even k then cell_x c else cell_y c.

(** The snake on the first 399 cells of the walk, about to enter the
    last free cell, which holds the food. *)
Definition fullBoardState : State :=
  {| snakeSegments := pathSnake 399;
     movementDirection := Left;
     foodCell := pathCell 399;
     gameStatus := Running;
     score := 397;
     highScore := 0;
     pendingDirection := None;
     localStorage := emptyStorage;
     randomCalls := 796 |}.

(** The direction of the move from a cell to a neighbour. *)
Definition directionTo (a b : GridCell) : Direction :=
  if decide (cell_x b < cell_x a) then Left
  else if decide (cell_x a < cell_x b) then Right
  else if decide (cell_y b < cell_y a) then Up
  else Down.

(** The cells the head visits on its way to [fullBoardState]: from the
    centre round to the corner (1,0) without eating, then along the
    walk. *)
Definition headRoute : list GridCell :=
  [Cell 11 10; Cell 11 11]
  ++ ((λ x, Cell x 11) <$> reverse (seqZ 0 11))
  ++ ((λ y, Cell 0 y) <$> reverse (seqZ 0 11))
  ++ (pathCell <$> seq 1 399).

Fixpoint directionsOf (from : GridCell) (route : list GridCell)
  : list Direction :=
  match route with
  | [] => []
  | c :: route' => directionTo from c :: directionsOf c route'
  end.

(** The player's input: before each tick, the direction of the move
    after it. *)
Definition fillingInputs : list Event :=
  tail (directionsOf (Cell 10 10) headRoute) ≫= λ d, [Press d; Tick].

Definition fillingGame : list Event := Start :: fillingInputs.

(** ** The engine read on cells

    The loop, the tick and the start with every test on a set of keys
    replaced by the test on the list of cells the set was built from.
    They are proved equal to the originals below and serve to run long
    games. *)

Fixpoint placeOnCells (rnd : nat → Z) (fuel : nat) (cells : list GridCell)
    (k : nat) : option (GridCell * nat) :=
  match fuel with
  | O => None
  | S fuel' =>
      let x := rnd k in
      let y := rnd (S k) in
      if decide (Cell x y ∉ cells) then Some (Cell x y, S (S k))
      else placeOnCells rnd fuel' cells (S (S k))
  end.

Definition startOnCells (rnd : nat → Z) (fuel : nat) (s : State)
  : option State :=
  '(food, k) ← placeOnCells rnd fuel initialSnake (randomCalls s);
  Some (setGameStatus Running
         (setScore 0
           (setFoodCell food
             (setRandomCalls k
               (setMovementDirection Right
                 (setSnakeSegments initialSnake s)))))).

Definition stepOnCells (rnd : nat → Z) (fuel : nat) (r : State)
  : option State :=
  let currentSnake := snakeSegments r in
  match last currentSnake with
  | None => Some r
  | Some head =>
      let s := commitPending r in
      let nextHead := moveHead (movementDirection r) head in
      if hitsWall nextHead then Some (endGameIn r s)
      else
        if decide (nextHead ∈ currentSnake) then Some (endGameIn r s)
        else
          let willEat :=
            bool_decide (cell_x nextHead = cell_x (foodCell r))
            && bool_decide (cell_y nextHead = cell_y (foodCell r)) in
          let newSnake := currentSnake ++ [nextHead] in
          let newSnake := if negb willEat then tail newSnake else newSnake in
          if willEat then
            let s := setScore (score s + 1) s in
            '(food, k) ← placeOnCells rnd fuel newSnake (randomCalls s);
            Some (setSnakeSegments newSnake
                   (setFoodCell food (setRandomCalls k s)))
          else Some (setSnakeSegments newSnake s)
  end.

Definition fireOnCells (rnd : nat → Z) (fuel : nat) (e : Event) (s : State)
  : option State :=
  match e with
  | Tick =>
      match scheduledInterval s with
      | Some _ => stepOnCells rnd fuel s
      | None => Some s
      end
  | Press next => Some (setDirectionImmediate next s)
  | Start =>
      if decide (gameStatus s ≠ Running) then startOnCells rnd fuel s else Some s
  | EndButton =>
      if decide (gameStatus s ≠ Running) then Some s else Some (endGameButton s)
  | ResetButton => Some (resetBest s)
  end.

Fixpoint runOnCells (rnd : nat → Z) (fuel : nat) (es : list Event) (s : State)
  : option State :=
  match es with
  | [] => Some s
  | e :: es' => s' ← fireOnCells rnd fuel e s; runOnCells rnd fuel es' s'
  end.

(** ** The rest of the page

    The memoised key set, the mount effect, the keyboard handler and the
    board view.  The two JS built-ins they call, [Number] and
    [String.prototype.toLowerCase], are taken as they come: [Number str]
    is the integer [Number(str)] evaluates to, [None] standing for NaN;
    statements say what they need of them. *)

(** [localStorage.getItem(key)], [None] for [null]. *)
Definition getItem (key : string) (st : Storage) : option string :=
  items st !! key.

(** [snakeSet] (lines 37-41): the keys added one by one. *)
Definition snakeSet (s : State) : gset string :=
  foldl (λ acc seg, acc ∪ {[ keyOf seg ]}) ∅ (snakeSegments s).

(** [isSnakeCell] (lines 188-191). *)
Definition isSnakeCell (s : State) (x y : Z) : bool :=
  bool_decide (cellKey x y ∈ snakeSet s).

Section Builtins.

Variable Number : string → option Z.
Variable toLowerCase : string → string.
Variable rnd : nat → Z.

(** The mount effect (lines 44-50), run once on the state of the first
    render: [Number(localStorage.getItem(KEY) || 0)], where [null] and
    the empty string are the falsy values of [getItem]; the best score
    is set unless the number is NaN; the food is re-placed off the
    snake. *)
Definition mountEffect (fuel : nat) (s : State) : option State :=
  let saved :=
    match getItem LOCAL_STORAGE_KEY (localStorage s) with
    | None => Some 0
    | Some str => if decide (str = ""%string) then Some 0 else Number str
    end in
  let s :=
    match saved with
    | Some v => setHighScore v s
    | None => s
    end in
  '(food, k) ← getRandomEmptyCell rnd fuel (snakeSet s) (randomCalls s);
  Some (setFoodCell food (setRandomCalls k s)).

(** The [keydown] handler (lines 146-170) on [e.key]. *)
Definition keydown (fuel : nat) (eKey : string) (s : State) : option State :=
  if decide (gameStatus s = Idle ∧ (eKey = " "%string ∨ eKey = "Enter"%string))
  then startGame rnd fuel s
  else if decide (gameStatus s ≠ Running) then Some s
  else
    let key := toLowerCase eKey in
    let isArrow := String.prefix "arrow" key in
    let next : option Direction := None in
    let next :=
      if decide (key = "w"%string ∨ key = "arrowup"%string) then Some Up else next in
    let next :=
      if decide (key = "s"%string ∨ key = "arrowdown"%string) then Some Down else next in
    let next :=
      if decide (key = "a"%string ∨ key = "arrowleft"%string) then Some Left else next in
    let next :=
      if decide (key = "d"%string ∨ key = "arrowright"%string) then Some Right else next in
    match next with
    | None => Some s
    | Some next =>
        if isReversal (movementDirection s) next then Some s
        else Some (setPendingDirectionRef (Some next) s)
    end.

End Builtins.

(** The board view (lines 209-220).  Cell [i] of the grid stands for
    the coordinates [(i % BOARD_SIZE, floor(i / BOARD_SIZE))]. *)
Definition boardCellAt (i : Z) : GridCell :=
  Cell (i mod BOARD_SIZE) (i / BOARD_SIZE).

(** The class names of cell [i] after [filter(Boolean)]. *)
Definition cellTokens (s : State) (i : Z) : list string :=
  let x := i mod BOARD_SIZE in
  let y := i / BOARD_SIZE in
  let isFood :=
    bool_decide (x = cell_x (foodCell s)) && bool_decide (y = cell_y (foodCell s)) in
  let isSnake := isSnakeCell s x y in
  let isHead :=
    match last (snakeSegments s) with
    | Some h => bool_decide (cell_x h = x) && bool_decide (cell_y h = y)
    | None => false
    end in
  filter (λ c, c ≠ ""%string)
    [ "cell"%string;
      if isSnake then "snake"%string else ""%string;
      if isHead then "head"%string else ""%string;
      if isFood then "food"%string else ""%string ].

(** [className]: the tokens joined by a space. *)
Definition cellClassName (s : State) (i : Z) : string :=
  String.concat " " (cellTokens s i).

(** The React key [`${x}-${y}`] of cell [i]. *)
Definition cellReactKey (i : Z) : string :=
  pretty (i mod BOARD_SIZE) +:+ "-" +:+ pretty (i / BOARD_SIZE).

(** [Array.from({ length: BOARD_SIZE * BOARD_SIZE }, ...)]: key and
    class name of every cell, in order. *)
Definition boardView (s : State) : list (string * string) :=
  (λ i, (cellReactKey i, cellClassName s i)) <$> seqZ 0 (BOARD_SIZE * BOARD_SIZE).

(** The cells of the board in the order of the view. *)
Definition boardCells : list GridCell :=
  boardCellAt <$> seqZ 0 (BOARD_SIZE * BOARD_SIZE).

(** ** Further notions used in the statements *)

(** The buffer does not hold the reverse of the active direction. *)
Definition bufferSafe (s : State) : Prop :=
  pendingDirection s ≠ Some (opposite (movementDirection s)).

(** The stored best score is the displayed one (nothing stored standing
    for 0). *)
Definition bestStored (s : State) : Prop :=
  getItem LOCAL_STORAGE_KEY (localStorage s) = Some (pretty (highScore s)) ∨
  (highScore s = 0 ∧ getItem LOCAL_STORAGE_KEY (localStorage s) = None).

(** The snake is two cells longer than the score. *)
Definition countsAgree (s : State) : Prop :=
  Z.of_nat (length (snakeSegments s)) = score s + 2 ∧ 0 ≤ score s.

(** Two cells side by side or one above the other. *)
Definition adjacent (a b : GridCell) : Prop :=
  Z.abs (cell_x a - cell_x b) + Z.abs (cell_y a - cell_y b) = 1.

(** Every segment touches the next one. *)
Fixpoint chained (l : list GridCell) : Prop :=
  match l with
  | a :: (b :: _) as l' => adjacent a b ∧ chained l'
  | _ => True
  end.

(** Lower case on the letters A-Z, every other character kept: what
    [toLowerCase] does to ASCII text. *)
Definition lowerChar (c : ascii) : ascii :=
  let n := nat_of_ascii c in
  if (65 <=? n)%nat && (n <=? 90)%nat then ascii_of_nat (n + 32) else c.

Fixpoint asciiLower (s : string) : string :=
  match s with
  | EmptyString => EmptyString
  | String c s' => String (lowerChar c) (asciiLower s')
  end.

(** A [Number] that knows one numeral only. *)
Definition numberOf12 (str : string) : option Z :=
  if decide (str = "12"%string) then Some 12 else None.

(** ** The next head of the specification

    "If a pending direction change was buffered, commit it as the
    active direction now; compute nextHead by moving the current head
    one cell in the active direction": the head moved in the direction
    that is active once the buffer has been committed. *)
Definition committedNextHead (r : State) : option GridCell :=
  moveHead (movementDirection (commitPending r)) <$> last (snakeSegments r).

(** An oracle whose draws all name the cell (10,9). *)
Definition tenNineRnd : nat → Z := λ k, if Nat.even k then 10 else 9.

(** An oracle whose first two draws name the cell (11,10) and whose
    later draws are 0. *)
Definition foodAheadRnd : nat → Z :=
  λ k, if (k <? 2)%nat then (if Nat.even k then 11 else 10) else 0.

(** * Properties *)

(** ** Cell keys

    The sets of occupied cells hold strings, so every membership test
    of the program is a test on keys.  Decimal numerals hold no comma,
    hence two cells with the same key are the same cell. *)


Lemma hasComma_app a b : hasComma (a +:+ b) = hasComma a || hasComma b.
Proof.
  induction a as [|c a IH]; simpl; [done|].
  rewrite IH. by destruct (bool_decide (c = ","%char)).
Qed.

Lemma pretty_N_char_not_comma n : pretty_N_char n ≠ ","%char.
Proof. unfold pretty_N_char. by repeat case_match. Qed.

Lemma pretty_N_go_no_comma n s :
  hasComma s = false → hasComma (pretty_N_go n s) = false.
Proof.
  revert s. induction (N.lt_wf_0 n) as [n _ IH]; intros s Hs.
  destruct (decide (n = 0%N)) as [->|Hn]; [by rewrite pretty_N_go_0|].
  rewrite pretty_N_go_step by lia.
  apply IH; [apply N.div_lt; lia|].
  simpl. rewrite Hs, orb_false_r.
  apply bool_decide_eq_false, pretty_N_char_not_comma.
Qed.

Lemma pretty_N_no_comma (n : N) : hasComma (pretty n) = false.
Proof.
  unfold pretty, pretty_N. case_decide; [done|].
  by apply pretty_N_go_no_comma.
Qed.

Lemma pretty_Z_no_comma (z : Z) : hasComma (pretty z) = false.
Proof.
  destruct z as [|p|p]; [done|apply pretty_N_no_comma|].
  change (pretty (Z.neg p)) with ("-" +:+ pretty (N.pos p)).
  rewrite hasComma_app, pretty_N_no_comma. done.
Qed.

Lemma app_comma_inj a b c d :
  hasComma a = false → hasComma c = false →
  a +:+ String "," b = c +:+ String "," d → a = c ∧ b = d.
Proof.
  revert c. induction a as [|x a IH]; intros [|y c] Ha Hc Heq; simpl in *.
  - by injection Heq.
  - injection Heq as <- _. by rewrite bool_decide_eq_true_2 in Hc.
  - injection Heq as -> _. by rewrite bool_decide_eq_true_2 in Ha.
  - injection Heq as -> Heq.
    apply orb_false_iff in Ha as [_ Ha]. apply orb_false_iff in Hc as [_ Hc].
    destruct (IH c Ha Hc Heq) as [-> ->]. done.
Qed.

Lemma cellKey_inj x1 y1 x2 y2 :
  cellKey x1 y1 = cellKey x2 y2 → x1 = x2 ∧ y1 = y2.
Proof.
  unfold cellKey. intros Heq.
  apply app_comma_inj in Heq as [Hx Hy]; try apply pretty_Z_no_comma.
  split; by apply (inj pretty).
Qed.

Lemma keyOf_inj c1 c2 : keyOf c1 = keyOf c2 → c1 = c2.
Proof.
  destruct c1, c2. unfold keyOf; simpl.
  intros [-> ->]%cellKey_inj. done.
Qed.

(** Membership of a key in the set built from a list of cells is
    membership of the cell in the list. *)
Lemma occupiedSet_has (cells : list GridCell) (c : GridCell) :
  keyOf c ∈ occupiedSet cells ↔ c ∈ cells.
Proof.
  unfold occupiedSet. rewrite elem_of_list_to_set, list_elem_of_fmap.
  split.
  - intros (c' & Hk & Hin). by apply keyOf_inj in Hk as ->.
  - intros Hin. by exists c.
Qed.

(** ** Board geometry *)

Lemma hitsWall_true c : hitsWall c = true ↔ ¬ inBoard c.
Proof.
  unfold hitsWall, inBoard.
  rewrite !orb_true_iff, !bool_decide_eq_true. lia.
Qed.

Lemma hitsWall_false c : hitsWall c = false ↔ inBoard c.
Proof.
  rewrite <-not_true_iff_false, hitsWall_true.
  split; [apply dec_stable|auto].
Qed.

Lemma moveHead_cases d head :
  moveHead d head =
    match d with
    | Up => Cell (cell_x head) (cell_y head - 1)
    | Down => Cell (cell_x head) (cell_y head + 1)
    | Left => Cell (cell_x head - 1) (cell_y head)
    | Right => Cell (cell_x head + 1) (cell_y head)
    end.
Proof. by destruct d. Qed.


(** ** The food-placement loop *)

Section Placement.

Variable rnd : nat → Z.


Lemma getRandomEmptyCell_Some fuel occupied k c k' :
  getRandomEmptyCell rnd fuel occupied k = Some (c, k') ↔
  ∃ j, (j < fuel)%nat ∧ firstFree rnd occupied k j ∧
       c = drawnCell rnd k j ∧ k' = (k + 2 * j + 2)%nat.
Proof.
  revert k. induction fuel as [|fuel IH]; intros k; simpl.
  { split; [done|]. intros (j & Hj & _). lia. }
  destruct (decide (cellKey (rnd k) (rnd (S k)) ∉ occupied)) as [Hfree|Hocc].
  - split.
    + intros [= <- <-]. exists 0%nat. unfold firstFree, drawnCell, keyOf; simpl.
      rewrite !Nat.add_0_r. repeat split; [lia|done|intros; lia|lia].
    + intros (j & _ & [Hj Hbefore] & -> & ->).
      destruct j as [|j].
      * unfold drawnCell. rewrite !Nat.add_0_r. do 2 f_equal. lia.
      * exfalso. specialize (Hbefore 0%nat ltac:(lia)).
        unfold drawnCell, keyOf in Hbefore; simpl in Hbefore.
        rewrite !Nat.add_0_r in Hbefore. done.
  - apply dec_stable in Hocc. rewrite IH. split.
    + intros (j & Hj & [Hfree Hbefore] & -> & ->).
      exists (S j). unfold firstFree, drawnCell in *.
      replace (k + 2 * S j)%nat with (S (S k) + 2 * j)%nat by lia.
      repeat split; [lia|done| |lia].
      intros [|i] Hi.
      * unfold keyOf; simpl. by rewrite !Nat.add_0_r.
      * replace (k + 2 * S i)%nat with (S (S k) + 2 * i)%nat by lia.
        apply Hbefore. lia.
    + intros (j & Hj & [Hfree Hbefore] & -> & ->).
      destruct j as [|j].
      { exfalso. unfold drawnCell, keyOf in Hfree; simpl in Hfree.
        rewrite !Nat.add_0_r in Hfree. done. }
      exists j. unfold firstFree, drawnCell in *.
      replace (k + 2 * S j)%nat with (S (S k) + 2 * j)%nat in * by lia.
      repeat split; [lia|done| |lia].
      intros i Hi. specialize (Hbefore (S i) ltac:(lia)).
      by replace (k + 2 * S i)%nat with (S (S k) + 2 * i)%nat in Hbefore by lia.
Qed.

(** Whatever the loop returns is outside the occupied set. *)
Lemma getRandomEmptyCell_free fuel occupied k c k' :
  getRandomEmptyCell rnd fuel occupied k = Some (c, k') → keyOf c ∉ occupied.
Proof.
  intros (j & _ & [Hfree _] & -> & _)%getRandomEmptyCell_Some. done.
Qed.

(** The loop returns as soon as some iteration draws a free cell. *)
Lemma getRandomEmptyCell_terminates occupied k j :
  keyOf (drawnCell rnd k j) ∉ occupied →
  ∃ c k', ∀ fuel, (j < fuel)%nat →
    getRandomEmptyCell rnd fuel occupied k = Some (c, k').
Proof.
  revert k. induction j as [|j IH]; intros k Hfree.
  - exists (drawnCell rnd k 0), (k + 2 * 0 + 2)%nat. intros fuel Hfuel.
    apply getRandomEmptyCell_Some. exists 0%nat.
    repeat split; [done|done|intros; lia].
  - destruct (decide (keyOf (drawnCell rnd k 0) ∉ occupied)) as [Hnow|Hocc].
    + exists (drawnCell rnd k 0), (k + 2 * 0 + 2)%nat. intros fuel Hfuel.
      apply getRandomEmptyCell_Some. exists 0%nat.
      repeat split; [lia|done|intros; lia].
    + destruct (IH (S (S k))) as (c & k' & Hret).
      { unfold drawnCell in *.
        by replace (S (S k) + 2 * j)%nat with (k + 2 * S j)%nat by lia. }
      exists c, k'. intros [|fuel] Hfuel; [lia|]. simpl.
      unfold drawnCell, keyOf in Hocc; simpl in Hocc.
      rewrite !Nat.add_0_r in Hocc.
      rewrite decide_False by done. apply Hret. lia.
Qed.

(** When no iteration ever draws a free cell the loop never returns. *)
Lemma getRandomEmptyCell_blocks occupied k :
  (∀ j, keyOf (drawnCell rnd k j) ∈ occupied) →
  ∀ fuel, getRandomEmptyCell rnd fuel occupied k = None.
Proof.
  intros Hocc fuel.
  destruct (getRandomEmptyCell rnd fuel occupied k) as [[c k']|] eqn:Hret; [|done].
  apply getRandomEmptyCell_Some in Hret as (j & _ & [Hfree _] & _).
  destruct Hfree. apply Hocc.
Qed.

End Placement.

(** ** One tick, case by case *)

Section Ticks.

Variable rnd : nat → Z.

Lemma willEat_true (h food : GridCell) :
  bool_decide (cell_x h = cell_x food) && bool_decide (cell_y h = cell_y food)
  = true ↔ h = food.
Proof.
  rewrite andb_true_iff, !bool_decide_eq_true.
  destruct h, food; simpl. split; [by intros [-> ->]|by intros [= -> ->]].
Qed.

Lemma willEat_false (h food : GridCell) :
  bool_decide (cell_x h = cell_x food) && bool_decide (cell_y h = cell_y food)
  = false ↔ h ≠ food.
Proof. by rewrite <-not_true_iff_false, willEat_true. Qed.

Lemma nextHeadOf_Some r h :
  nextHeadOf r = Some h ↔
  ∃ head, last (snakeSegments r) = Some head ∧
          h = moveHead (movementDirection r) head.
Proof.
  unfold nextHeadOf. destruct (last (snakeSegments r)) as [head|]; simpl.
  - split; [intros [= <-]; by exists head|by intros (? & [= <-] & ->)].
  - split; [done|by intros (? & ? & _)].
Qed.

Lemma nextHeadOf_None r : nextHeadOf r = None ↔ snakeSegments r = [].
Proof.
  unfold nextHeadOf. rewrite fmap_None. apply last_None.
Qed.

(** Line 75: an empty snake is returned as it is, before anything else
    happens. *)
Lemma step_no_snake fuel r : snakeSegments r = [] → step rnd fuel r = Some r.
Proof. unfold step. by intros ->. Qed.

(** Lines 90-106: a collision ends the game and returns the snake. *)
Lemma step_collision fuel r h :
  nextHeadOf r = Some h → ¬ inBoard h ∨ h ∈ snakeSegments r →
  step rnd fuel r = Some (endGameIn r (commitPending r)).
Proof.
  intros (head & Hlast & ->)%nextHeadOf_Some Hhit. unfold step. rewrite Hlast.
  destruct (hitsWall _) eqn:Hwall; [done|].
  apply hitsWall_false in Hwall. destruct Hhit as [|Hin]; [done|].
  by rewrite decide_True by by apply occupiedSet_has.
Qed.

(** Lines 108-118 when the food is not reached. *)
Lemma step_move fuel r h :
  nextHeadOf r = Some h → inBoard h → h ∉ snakeSegments r → h ≠ foodCell r →
  step rnd fuel r =
    Some (setSnakeSegments (tail (snakeSegments r ++ [h])) (commitPending r)).
Proof.
  intros (head & Hlast & ->)%nextHeadOf_Some Hin Hfree Hfood.
  unfold step. rewrite Hlast.
  apply hitsWall_false in Hin as ->.
  rewrite decide_False by by rewrite occupiedSet_has.
  apply willEat_false in Hfood as ->. done.
Qed.

(** Lines 108-118 when the food is reached. *)
Lemma step_eat fuel r h :
  nextHeadOf r = Some h → inBoard h → h ∉ snakeSegments r → h = foodCell r →
  step rnd fuel r =
    '(food, k) ← getRandomEmptyCell rnd fuel
                   (occupiedSet (snakeSegments r ++ [h])) (randomCalls r);
    Some (setSnakeSegments (snakeSegments r ++ [h])
           (setFoodCell food
             (setRandomCalls k (setScore (score r + 1) (commitPending r))))).
Proof.
  intros (head & Hlast & ->)%nextHeadOf_Some Hin Hfree Hfood.
  unfold step. rewrite Hlast.
  apply hitsWall_false in Hin as ->.
  rewrite decide_False by by rewrite occupiedSet_has.
  apply willEat_true in Hfood as ->. simpl.
  assert (score (commitPending r) = score r) as ->
    by (unfold commitPending; by destruct (pendingDirection r)).
  assert (randomCalls (commitPending r) = randomCalls r) as ->
    by (unfold commitPending; by destruct (pendingDirection r)).
  done.
Qed.

(** The commit of lines 77-81 touches the direction and the buffer
    only. *)
Lemma commitPending_fields s :
  snakeSegments (commitPending s) = snakeSegments s ∧
  foodCell (commitPending s) = foodCell s ∧
  gameStatus (commitPending s) = gameStatus s ∧
  score (commitPending s) = score s ∧
  highScore (commitPending s) = highScore s ∧
  localStorage (commitPending s) = localStorage s ∧
  randomCalls (commitPending s) = randomCalls s.
Proof. unfold commitPending. by destruct (pendingDirection s). Qed.

Lemma commitPending_direction s d :
  pendingDirection s = Some d →
  movementDirection (commitPending s) = d ∧
  pendingDirection (commitPending s) = None.
Proof. unfold commitPending. by intros ->. Qed.

Lemma endGameIn_fields r s :
  snakeSegments (endGameIn r s) = snakeSegments s ∧
  movementDirection (endGameIn r s) = movementDirection s ∧
  pendingDirection (endGameIn r s) = pendingDirection s ∧
  foodCell (endGameIn r s) = foodCell s ∧
  score (endGameIn r s) = score s ∧
  randomCalls (endGameIn r s) = randomCalls s ∧
  gameStatus (endGameIn r s) = Over.
Proof. unfold endGameIn. by case_decide. Qed.

End Ticks.

(** ** The tick interval *)

Lemma Qfloor_quotient_5 (n : Z) : Qfloor (inject_Z n / 5) = n / 5.
Proof.
  unfold Qfloor, Qdiv, Qmult, Qinv, inject_Z; simpl.
  by rewrite Z.mul_1_r.
Qed.

Lemma speedMs_unfold sc : speedMs sc = Z.max 60 (140 - Z.min 80 (sc / 5 * 10)).
Proof. done. Qed.

(** C7. For every non-negative integer score the interval [speedMs]
    computes is [max(60, 140 - min(80, floor(score/5)*10))]; it is 130
    at score 7 and 60 at score 50, lies in [60, 140], and does not
    increase when the score does. *)
Theorem speedMs_is_currentTickInterval :
  (∀ sc, 0 ≤ sc → speedMs sc = currentTickInterval sc) ∧
  speedMs 7 = 130 ∧
  speedMs 50 = 60 ∧
  (∀ sc, 0 ≤ sc → 60 ≤ speedMs sc ≤ 140) ∧
  (∀ sc1 sc2, 0 ≤ sc1 → sc1 ≤ sc2 → speedMs sc2 ≤ speedMs sc1).
Proof.
  split; [|split; [done|split; [done|split]]].
  - intros sc _. unfold currentTickInterval.
    by rewrite Qfloor_quotient_5, speedMs_unfold.
  - intros sc Hsc. rewrite speedMs_unfold.
    assert (0 ≤ sc / 5) by (apply Z.div_pos; lia). lia.
  - intros sc1 sc2 H1 H12. rewrite !speedMs_unfold.
    assert (sc1 / 5 ≤ sc2 / 5) by (apply Z.div_le_mono; lia). lia.
Qed.

Lemma speedMs_is_currentTickInterval_witness :
  speedMs 23 = currentTickInterval 23 ∧ 60 ≤ speedMs 23 ≤ 140 ∧
  speedMs 23 ≤ speedMs 4.
Proof.
  destruct speedMs_is_currentTickInterval as (Heq & _ & _ & Hbound & Hmono).
  split; [apply Heq; lia|].
  split; [apply Hbound; lia|apply Hmono; lia].
Defined.

(** ** Ending a game *)

(** C9. [endGame] sets the status to over.  When the score is strictly
    above the best score, the best score becomes the score and one
    [setItem] of that score is made on the store; when it is not, the
    best score stays and the store sees no call.  Nothing else changes.
    Score 12 against best 10 stores 12; score 5 against best 10 changes
    nothing. *)
Theorem endGame_high_score :
  (∀ s, gameStatus (endGame s) = Over ∧
        snakeSegments (endGame s) = snakeSegments s ∧
        movementDirection (endGame s) = movementDirection s ∧
        foodCell (endGame s) = foodCell s ∧
        score (endGame s) = score s) ∧
  (∀ s, score s > highScore s →
        highScore (endGame s) = score s ∧
        localStorage (endGame s)
        = setItem LOCAL_STORAGE_KEY (pretty (score s)) (localStorage s)) ∧
  (∀ s, score s ≤ highScore s →
        highScore (endGame s) = highScore s ∧
        localStorage (endGame s) = localStorage s) ∧
  (∀ s, ops (localStorage (endGame s)) ≠ ops (localStorage s) ↔
        score s > highScore s) ∧
  (highScore (endGame (scoredGame 12 10)) = 12 ∧
   items (localStorage (endGame (scoredGame 12 10))) !! LOCAL_STORAGE_KEY
   = Some "12"%string ∧
   ops (localStorage (endGame (scoredGame 12 10)))
   = [SetItem LOCAL_STORAGE_KEY "12"]) ∧
  (highScore (endGame (scoredGame 5 10)) = 10 ∧
   localStorage (endGame (scoredGame 5 10)) = localStorage (scoredGame 5 10)).
Proof.
  split; [|split; [|split; [|split; [|split]]]].
  - intros s. unfold endGame, endGameIn. by case_decide.
  - intros s Hgt. unfold endGame, endGameIn. by rewrite decide_True.
  - intros s Hle. unfold endGame, endGameIn. by rewrite decide_False by lia.
  - intros s. unfold endGame, endGameIn. case_decide; simpl.
    + split; [done|]. intros _ Heq.
      apply (f_equal length) in Heq. simpl in Heq. lia.
    + split; [done|]. intros Hgt. lia.
  - by vm_compute.
  - by vm_compute.
Qed.

Lemma endGame_high_score_witness :
  highScore (endGame (scoredGame 3 1)) = 3 ∧
  highScore (endGame (scoredGame 1 3)) = 3.
Proof.
  destruct endGame_high_score as (_ & Hup & Hkeep & _).
  split.
  - apply (Hup (scoredGame 3 1)). reflexivity.
  - apply (Hkeep (scoredGame 1 3)). simpl. lia.
Defined.

(** C3. The "End Game" button against [endGame]: in a running game with
    score 12 and best score 10 the button only sets the status; the best
    score stays 10 and the store sees no call, whereas [endGame] on the
    same state records 12 and stores it. *)
Theorem endGameButton_skips_high_score :
  gameStatus (scoredGame 12 10) = Running ∧
  gameStatus (endGameButton (scoredGame 12 10)) = Over ∧
  highScore (endGameButton (scoredGame 12 10)) = 10 ∧
  localStorage (endGameButton (scoredGame 12 10)) = emptyStorage ∧
  fire zeros 0 EndButton (scoredGame 12 10)
  = Some (endGameButton (scoredGame 12 10)) ∧
  highScore (endGame (scoredGame 12 10)) = 12 ∧
  ops (localStorage (endGame (scoredGame 12 10)))
  = [SetItem LOCAL_STORAGE_KEY "12"].
Proof. repeat split. Qed.

(** The button never touches the best score or the store. *)
Lemma endGameButton_fields s :
  endGameButton s = setGameStatus Over s ∧
  highScore (endGameButton s) = highScore s ∧
  localStorage (endGameButton s) = localStorage s.
Proof. done. Qed.

(** ** Direction input *)

Lemma isReversal_opposite current next :
  isReversal current next = true ↔ next = opposite current.
Proof. destruct current, next; by vm_compute. Qed.

(** C8. [setDirectionImmediate next] changes nothing when the game is
    not running or [next] is the opposite of the active direction.  In
    every other case it overwrites the pending slot with [next] and
    changes nothing else; the commit at the start of the next tick makes
    [next] the active direction and empties the slot. *)
Theorem setDirectionImmediate_pending (next : Direction) (s : State) :
  (gameStatus s ≠ Running ∨ next = opposite (movementDirection s) →
   setDirectionImmediate next s = s) ∧
  (gameStatus s = Running → next ≠ opposite (movementDirection s) →
   setDirectionImmediate next s = setPendingDirectionRef (Some next) s ∧
   pendingDirection (setDirectionImmediate next s) = Some next ∧
   movementDirection (commitPending (setDirectionImmediate next s)) = next ∧
   pendingDirection (commitPending (setDirectionImmediate next s)) = None ∧
   ∀ rnd fuel s', snakeSegments s ≠ [] →
     step rnd fuel (setDirectionImmediate next s) = Some s' →
     movementDirection s' = next ∧ pendingDirection s' = None).
Proof.
  unfold setDirectionImmediate. split.
  - intros [Hstatus|Hopp].
    + by rewrite decide_True.
    + case_decide; [done|].
      by apply isReversal_opposite in Hopp as ->.
  - intros Hrun Hopp. rewrite decide_False by (by intros []).
    rewrite <-isReversal_opposite in Hopp.
    apply not_true_is_false in Hopp as ->.
    do 4 (split; [done|]).
    intros rnd fuel s' Hsnake Hstep.
    set (r := setPendingDirectionRef (Some next) s) in *.
    assert (pendingDirection r = Some next) as Hpend by done.
    destruct (commitPending_direction r next Hpend) as [Hdir Hnone].
    unfold step in Hstep. change (snakeSegments r) with (snakeSegments s) in Hstep.
    destruct (last (snakeSegments s)) as [head|] eqn:Hlast;
      [|by apply last_None in Hlast].
    pose proof (endGameIn_fields r (commitPending r)) as (_ & He1 & He2 & _).
    destruct (hitsWall _); [injection Hstep as <-; by rewrite He1, He2|].
    destruct (decide _); [injection Hstep as <-; by rewrite He1, He2|].
    destruct (_ && _); simpl in Hstep.
    + destruct (getRandomEmptyCell _ _ _ _) as [[food k]|]; [|done].
      injection Hstep as <-. by split.
    + injection Hstep as <-. by split.
Qed.

Lemma setDirectionImmediate_pending_witness :
  setDirectionImmediate Left (freshGame (Cell 5 5) None)
  = freshGame (Cell 5 5) None ∧
  pendingDirection (setDirectionImmediate Up (freshGame (Cell 5 5) (Some Down)))
  = Some Up.
Proof.
  split.
  - apply (setDirectionImmediate_pending Left (freshGame (Cell 5 5) None)).
    right. reflexivity.
  - apply (setDirectionImmediate_pending Up (freshGame (Cell 5 5) (Some Down)));
      [reflexivity|discriminate].
Defined.

(** ** Ticks and the status *)

(** C2 as stated fails for [step]: on the idle state of the first
    render it moves the snake. *)
Lemma step_moves_idle_snake :
  gameStatus (initialState emptyStorage) = Idle ∧
  step zeros 0 (initialState emptyStorage)
  = Some (setSnakeSegments [Cell 10 10; Cell 11 10] (initialState emptyStorage)) ∧
  step zeros 0 (initialState emptyStorage) ≠ Some (initialState emptyStorage).
Proof.
  assert (step zeros 0 (initialState emptyStorage)
          = Some (setSnakeSegments [Cell 10 10; Cell 11 10]
                    (initialState emptyStorage))) as Hstep by by vm_compute.
  split; [done|]. split; [done|]. by rewrite Hstep.
Qed.

(** C2, amended. [step] has no status test of its own; the guard is the
    timer effect: while the status is not running no interval is
    scheduled, so a firing of the timer leaves the whole state as it is.
    While the status is running the interval runs [step] with period
    [speedMs score]. *)
Theorem timerFires_not_running (rnd : nat → Z) (fuel : nat) (s : State) :
  (gameStatus s ≠ Running →
   scheduledInterval s = None ∧ timerFires rnd fuel s = Some s) ∧
  (gameStatus s = Running →
   scheduledInterval s = Some (speedMs (score s)) ∧
   timerFires rnd fuel s = step rnd fuel s).
Proof.
  unfold timerFires, scheduledInterval. split; intros Hstatus.
  - by rewrite decide_True.
  - by rewrite decide_False by (by intros []).
Qed.

Lemma timerFires_not_running_witness :
  timerFires zeros 0 (initialState emptyStorage) = Some (initialState emptyStorage) ∧
  timerFires zeros 0 (endGame (scoredGame 12 10)) = Some (endGame (scoredGame 12 10)).
Proof.
  split.
  - apply (timerFires_not_running zeros 0 (initialState emptyStorage)).
    discriminate.
  - apply (timerFires_not_running zeros 0 (endGame (scoredGame 12 10))).
    discriminate.
Defined.

(** ** The direction a tick moves in *)

(** Whatever a tick appends as the new head is the head moved in the
    direction of the render the tick started from. *)
Lemma step_new_head rnd fuel r s' h :
  nextHeadOf r = Some h → inBoard h → h ∉ snakeSegments r →
  step rnd fuel r = Some s' → last (snakeSegments s') = Some h.
Proof.
  intros Hnext Hin Hfree Hstep.
  destruct (decide (h = foodCell r)) as [Hfood|Hfood].
  - rewrite (step_eat _ _ _ _ Hnext Hin Hfree Hfood) in Hstep.
    destruct (getRandomEmptyCell _ _ _ _) as [[food k]|]; [|done].
    injection Hstep as <-. simpl. apply last_snoc.
  - rewrite (step_move _ _ _ _ Hnext Hin Hfree Hfood) in Hstep.
    injection Hstep as <-. simpl.
    apply nextHeadOf_Some in Hnext as (head & Hlast & _).
    destruct (snakeSegments r) as [|c l]; [done|]. simpl. apply last_snoc.
Qed.

(** C1. A running game with snake [(9,10),(10,10)], direction right and
    a buffered "up": the tick commits "up" as the active direction and
    empties the buffer, yet the new head is (11,10), the old head moved
    right, and not (10,9), the old head moved up.  The buffered
    direction moves the snake only from the following tick on. *)
Theorem step_moves_in_previous_direction :
  ∀ rnd fuel,
    step rnd fuel (freshGame (Cell 5 5) (Some Up))
    = Some (gameWith [Cell 10 10; Cell 11 10] Up (Cell 5 5) None) ∧
    nextHeadOf (freshGame (Cell 5 5) (Some Up)) = Some (Cell 11 10) ∧
    moveHead Up (Cell 10 10) = Cell 10 9 ∧
    run rnd fuel [Tick; Tick] (freshGame (Cell 5 5) (Some Up))
    = Some (gameWith [Cell 11 10; Cell 11 9] Up (Cell 5 5) None).
Proof. intros rnd fuel. repeat split. Qed.

(** ** Collisions *)

Lemma step_collision_result rnd fuel r h :
  nextHeadOf r = Some h → ¬ inBoard h ∨ h ∈ snakeSegments r →
  ∃ s', step rnd fuel r = Some s' ∧ gameStatus s' = Over ∧
        snakeSegments s' = snakeSegments r.
Proof.
  intros Hnext Hhit. eexists. split; [by eapply step_collision|].
  pose proof (endGameIn_fields r (commitPending r)) as (-> & _ & _ & _ & _ & _ & ->).
  by pose proof (commitPending_fields r) as (-> & _).
Qed.

Lemma step_no_collision_status rnd fuel r s' h :
  nextHeadOf r = Some h → inBoard h → h ∉ snakeSegments r →
  step rnd fuel r = Some s' → gameStatus s' = gameStatus r.
Proof.
  intros Hnext Hin Hfree Hstep.
  pose proof (commitPending_fields r) as (_ & _ & Hstatus & _).
  destruct (decide (h = foodCell r)) as [Hfood|Hfood].
  - rewrite (step_eat _ _ _ _ Hnext Hin Hfree Hfood) in Hstep.
    destruct (getRandomEmptyCell _ _ _ _) as [[food k]|]; [|done].
    by injection Hstep as <-.
  - rewrite (step_move _ _ _ _ Hnext Hin Hfree Hfood) in Hstep.
    by injection Hstep as <-.
Qed.

(** The collision test on the cell the code computes ([nextHeadOf],
    the head moved in the direction of the render the tick started
    from).  In a running game a tick ends the game and leaves the snake
    as it is exactly when that cell is off the board or is one of the
    cells the snake covers before the move, the tail cell included: a
    collision always produces that result, and any result of a tick is
    of that kind only after a collision.  In particular such a cell on
    the current tail cell ends the game. *)
Theorem step_collision_iff (rnd : nat → Z) (r : State) :
  gameStatus r = Running →
  (∀ h, nextHeadOf r = Some h → ¬ inBoard h ∨ h ∈ snakeSegments r →
     ∀ fuel, ∃ s', step rnd fuel r = Some s' ∧ gameStatus s' = Over ∧
                   snakeSegments s' = snakeSegments r) ∧
  (∀ fuel s', step rnd fuel r = Some s' →
     (gameStatus s' = Over ∧ snakeSegments s' = snakeSegments r ↔
      ∃ h, nextHeadOf r = Some h ∧ (¬ inBoard h ∨ h ∈ snakeSegments r))) ∧
  (∀ h, nextHeadOf r = Some h → head (snakeSegments r) = Some h →
     ∀ fuel, ∃ s', step rnd fuel r = Some s' ∧ gameStatus s' = Over ∧
                   snakeSegments s' = snakeSegments r).
Proof.
  intros Hrun. split; [|split].
  - intros h Hnext Hhit fuel. by apply step_collision_result with h.
  - intros fuel s' Hstep. split.
    + intros [Hover Hsame].
      destruct (nextHeadOf r) as [h|] eqn:Hnext.
      * exists h. split; [done|].
        destruct (decide (inBoard h)) as [Hin|]; [|by left].
        destruct (decide (h ∈ snakeSegments r)) as [|Hfree]; [by right|].
        rewrite (step_no_collision_status _ _ _ _ _ Hnext Hin Hfree Hstep) in Hover.
        congruence.
      * apply nextHeadOf_None in Hnext.
        rewrite step_no_snake in Hstep by done. congruence.
    + intros (h & Hnext & Hhit).
      destruct (step_collision_result rnd fuel r h Hnext Hhit)
        as (s'' & Hstep' & Hover & Hsame).
      by assert (s'' = s') as <- by congruence.
  - intros h Hnext Hhead fuel. apply step_collision_result with h; [done|].
    right. destruct (snakeSegments r) as [|c l]; [done|].
    injection Hhead as ->. apply list_elem_of_here.
Qed.

Lemma step_collision_iff_witness :
  (∃ s', step zeros 0 (gameWith [Cell 18 10; Cell 19 10] Right (Cell 5 5) None)
         = Some s' ∧ gameStatus s' = Over ∧
         snakeSegments s' = [Cell 18 10; Cell 19 10]) ∧
  (∃ s', step zeros 0
           (gameWith [Cell 0 0; Cell 1 0; Cell 1 1; Cell 0 1] Up (Cell 5 5) None)
         = Some s' ∧ gameStatus s' = Over ∧
         snakeSegments s' = [Cell 0 0; Cell 1 0; Cell 1 1; Cell 0 1]).
Proof.
  split.
  - refine (proj1 (step_collision_iff zeros
             (gameWith [Cell 18 10; Cell 19 10] Right (Cell 5 5) None) eq_refl)
             (Cell 20 10) eq_refl _ 0%nat).
    left. unfold inBoard, BOARD_SIZE. simpl. lia.
  - exact (proj2 (proj2 (step_collision_iff zeros
             (gameWith [Cell 0 0; Cell 1 0; Cell 1 1; Cell 0 1] Up (Cell 5 5) None)
             eq_refl))
             (Cell 0 0) eq_refl eq_refl 0%nat).
Defined.

(** ** Growing and moving *)

Lemma tail_snoc (l : list GridCell) (c : GridCell) :
  l ≠ [] → tail (l ++ [c]) = tail l ++ [c].
Proof. by destruct l. Qed.

Lemma length_tail_snoc (l : list GridCell) (c : GridCell) :
  l ≠ [] → length (tail l ++ [c]) = length l.
Proof. destruct l; [done|]. intros _. rewrite length_app. simpl. lia. Qed.

Lemma drawnCell_inBoard rnd k j :
  rnd_in_range rnd → inBoard (drawnCell rnd k j).
Proof. intros Hrange. split; apply Hrange. Qed.

(** A tick without collision, on the cell the code computes
    ([nextHeadOf]).  If that cell is the food cell:
    any result has the next head appended (one cell more), the score
    one higher, the status unchanged, and as food the first cell drawn
    that the longer snake does not cover (a board cell when the draws
    are in range); and the tick does produce that result once some draw
    is such a cell.  Otherwise the tick appends the next head and drops
    the oldest cell; length, score and food stay.  From
    [(9,10),(10,10)] heading right, with an empty buffer and the food
    not at (11,10), one tick gives [(10,10),(11,10)], still running. *)
Theorem step_grow_or_move :
  (∀ rnd r h,
     gameStatus r = Running → nextHeadOf r = Some h →
     inBoard h → h ∉ snakeSegments r →
     (h = foodCell r →
        (∀ fuel s', step rnd fuel r = Some s' →
           snakeSegments s' = snakeSegments r ++ [h] ∧
           length (snakeSegments s') = S (length (snakeSegments r)) ∧
           score s' = score r + 1 ∧
           gameStatus s' = Running ∧
           (foodCell s' ∉ snakeSegments s') ∧
           (rnd_in_range rnd → inBoard (foodCell s')) ∧
           ∃ j, firstFree rnd (occupiedSet (snakeSegments s')) (randomCalls r) j ∧
                foodCell s' = drawnCell rnd (randomCalls r) j) ∧
        (∀ j, keyOf (drawnCell rnd (randomCalls r) j)
                ∉ occupiedSet (snakeSegments r ++ [h]) →
           ∃ s', ∀ fuel, (j < fuel)%nat → step rnd fuel r = Some s')) ∧
     (h ≠ foodCell r →
        ∀ fuel, ∃ s', step rnd fuel r = Some s' ∧
           snakeSegments s' = tail (snakeSegments r) ++ [h] ∧
           length (snakeSegments s') = length (snakeSegments r) ∧
           score s' = score r ∧
           foodCell s' = foodCell r ∧
           gameStatus s' = Running)) ∧
  (∀ rnd fuel food,
     food ≠ Cell 11 10 →
     ∃ s', step rnd fuel (gameWith [Cell 9 10; Cell 10 10] Right food None)
           = Some s' ∧
           snakeSegments s' = [Cell 10 10; Cell 11 10] ∧
           gameStatus s' = Running).
Proof.
  split.
  - intros rnd r h Hrun Hnext Hin Hfree.
    pose proof (commitPending_fields r) as (Hsnake & Hfood & Hstatus & Hscore & _).
    split.
    + intros Heat. split.
      * intros fuel s'. rewrite (step_eat _ _ _ _ Hnext Hin Hfree Heat).
        destruct (getRandomEmptyCell _ _ _ _) as [[food k]|] eqn:Hplace; [|done].
        intros [= <-]. simpl.
        apply getRandomEmptyCell_Some in Hplace
          as (j & _ & Hfirst & -> & _).
        split; [done|]. split; [rewrite length_app; simpl; lia|].
        split; [done|]. split; [congruence|].
        split; [rewrite <-occupiedSet_has; apply Hfirst|].
        split; [intros Hrange; by apply drawnCell_inBoard|].
        by exists j.
      * intros j Hj.
        destruct (getRandomEmptyCell_terminates rnd _ _ _ Hj) as (c & k' & Hret).
        eexists. intros fuel Hfuel.
        rewrite (step_eat _ _ _ _ Hnext Hin Hfree Heat), (Hret fuel Hfuel).
        reflexivity.
    + intros Hmove fuel. eexists.
      split; [by apply step_move|]. simpl.
      apply nextHeadOf_Some in Hnext as (head & Hlast & _).
      assert (snakeSegments r ≠ []) as Hne by (by intros Hnil; rewrite Hnil in Hlast).
      split; [by apply tail_snoc|].
      split; [rewrite tail_snoc by done; by apply length_tail_snoc|].
      split; [done|]. split; [done|congruence].
  - intros rnd fuel food Hfood. eexists. split.
    + apply step_move with (h := Cell 11 10); [done| | |simpl; congruence].
      * unfold inBoard, BOARD_SIZE; simpl; lia.
      * simpl. rewrite !not_elem_of_cons.
        repeat split; try discriminate. apply not_elem_of_nil.
    + done.
Qed.

Lemma step_grow_or_move_witness :
  (∃ s', step zeros 0 (gameWith [Cell 9 10; Cell 10 10] Right (Cell 5 5) None)
         = Some s' ∧
         snakeSegments s' = [Cell 10 10; Cell 11 10] ∧
         gameStatus s' = Running) ∧
  (∃ s', ∀ fuel, (0 < fuel)%nat →
         step zeros fuel (gameWith [Cell 9 10; Cell 10 10] Right (Cell 11 10) None)
         = Some s').
Proof.
  split.
  - apply (proj2 step_grow_or_move zeros 0%nat (Cell 5 5)). discriminate.
  - refine (proj2 (proj1 (proj1 step_grow_or_move zeros
             (gameWith [Cell 9 10; Cell 10 10] Right (Cell 11 10) None)
             (Cell 11 10) eq_refl eq_refl _ _) eq_refl) 0%nat _).
    + unfold inBoard, BOARD_SIZE; simpl; lia.
    + simpl. rewrite !not_elem_of_cons.
      repeat split; try discriminate. apply not_elem_of_nil.
    + apply (bool_decide_unpack _). vm_compute. exact I.
Defined.

(** ** Keys against cells *)

Lemma placeOnCells_eq rnd fuel cells k :
  getRandomEmptyCell rnd fuel (occupiedSet cells) k
  = placeOnCells rnd fuel cells k.
Proof.
  revert k. induction fuel as [|fuel IH]; intros k; simpl; [done|].
  rewrite IH. apply decide_ext.
  by rewrite <-(occupiedSet_has cells (Cell (rnd k) (rnd (S k)))).
Qed.

Lemma startOnCells_eq rnd fuel s :
  startGame rnd fuel s = startOnCells rnd fuel s.
Proof. unfold startGame, startOnCells. by rewrite placeOnCells_eq. Qed.

Lemma stepOnCells_eq rnd fuel r : step rnd fuel r = stepOnCells rnd fuel r.
Proof.
  unfold step, stepOnCells.
  destruct (last (snakeSegments r)) as [head|]; [|done].
  destruct (hitsWall _); [done|].
  rewrite (decide_ext _ _ _ _ (occupiedSet_has _ _)).
  destruct (decide _); [done|].
  destruct (_ && _); [|done]. simpl. by rewrite placeOnCells_eq.
Qed.

Lemma fireOnCells_eq rnd fuel e s : fire rnd fuel e s = fireOnCells rnd fuel e s.
Proof.
  destruct e; simpl; try done.
  - unfold timerFires. by rewrite stepOnCells_eq.
  - by rewrite startOnCells_eq.
Qed.

Lemma runOnCells_eq rnd fuel es s : run rnd fuel es s = runOnCells rnd fuel es s.
Proof.
  revert s. induction es as [|e es IH]; intros s; simpl; [done|].
  rewrite fireOnCells_eq. destruct (fireOnCells rnd fuel e s); simpl; [apply IH|done].
Qed.

(** ** The invariant of a game *)

Lemma initialSnake_inBoard c : c ∈ initialSnake → inBoard c.
Proof.
  unfold initialSnake. rewrite !elem_of_cons, elem_of_nil.
  intros [->|[->|[]]]; by vm_compute.
Qed.

Lemma initialSnake_NoDup : NoDup initialSnake.
Proof.
  unfold initialSnake. rewrite !NoDup_cons, !not_elem_of_cons.
  repeat split; try discriminate; auto using not_elem_of_nil, NoDup_nil_2.
Qed.

Lemma startGame_invariant rnd fuel s0 s :
  startGame rnd fuel s0 = Some s → snakeInvariant s.
Proof.
  unfold startGame.
  destruct (getRandomEmptyCell _ _ _ _) as [[food k]|] eqn:Hplace; [|done].
  intros [= <-]. unfold snakeInvariant; simpl.
  split; [apply initialSnake_inBoard|]. split; [apply initialSnake_NoDup|].
  rewrite <-occupiedSet_has. by eapply getRandomEmptyCell_free.
Qed.

Lemma elem_of_tail (l : list GridCell) (c : GridCell) : c ∈ tail l → c ∈ l.
Proof. destruct l; [done|]. simpl. by apply list_elem_of_further. Qed.

Lemma NoDup_tail (l : list GridCell) : NoDup l → NoDup (tail l).
Proof. destruct l; [done|]. simpl. by intros [_ ?]%NoDup_cons. Qed.

Lemma NoDup_snoc_fresh (l : list GridCell) (c : GridCell) :
  NoDup l → c ∉ l → NoDup (l ++ [c]).
Proof.
  intros Hl Hc. apply NoDup_app. split; [done|].
  split; [|apply NoDup_singleton].
  intros x Hx. rewrite list_elem_of_singleton. by intros ->.
Qed.

(** [step] keeps the invariant, whatever the status. *)
Lemma step_invariant rnd fuel r s' :
  snakeInvariant r → step rnd fuel r = Some s' → snakeInvariant s'.
Proof.
  intros (Hboard & Hdup & Hfood) Hstep.
  pose proof (commitPending_fields r) as (Hc1 & Hc2 & _).
  destruct (nextHeadOf r) as [h|] eqn:Hnext.
  2:{ apply nextHeadOf_None in Hnext. rewrite step_no_snake in Hstep by done.
      by injection Hstep as <-. }
  destruct (decide (inBoard h ∧ h ∉ snakeSegments r)) as [[Hin Hfree]|Hhit].
  - destruct (decide (h = foodCell r)) as [Heat|Hmove].
    + rewrite (step_eat _ _ _ _ Hnext Hin Hfree Heat) in Hstep.
      destruct (getRandomEmptyCell _ _ _ _) as [[food k]|] eqn:Hplace; [|done].
      injection Hstep as <-. unfold snakeInvariant; simpl.
      split; [|split].
      * intros c [Hc|Hc%list_elem_of_singleton]%elem_of_app; [auto|by subst].
      * by apply NoDup_snoc_fresh.
      * rewrite <-occupiedSet_has. by eapply getRandomEmptyCell_free.
    + rewrite (step_move _ _ _ _ Hnext Hin Hfree Hmove) in Hstep.
      injection Hstep as <-. unfold snakeInvariant; simpl.
      apply nextHeadOf_Some in Hnext as (head & Hlast & _).
      assert (snakeSegments r ≠ []) as Hne by (by intros Hnil; rewrite Hnil in Hlast).
      rewrite tail_snoc by done. rewrite Hc2.
      split; [|split].
      * intros c [Hc%elem_of_tail|Hc%list_elem_of_singleton]%elem_of_app;
          [auto|by subst].
      * apply NoDup_snoc_fresh; [by apply NoDup_tail|].
        intros Hh%elem_of_tail. done.
      * rewrite not_elem_of_app, list_elem_of_singleton. split; [|congruence].
        intros Hf%elem_of_tail. done.
  - assert (¬ inBoard h ∨ h ∈ snakeSegments r) as Hhit'.
    { destruct (decide (inBoard h)); [|by left].
      destruct (decide (h ∈ snakeSegments r)); [by right|]. by destruct Hhit. }
    rewrite (step_collision _ _ _ _ Hnext Hhit') in Hstep.
    injection Hstep as <-.
    pose proof (endGameIn_fields r (commitPending r)) as (He1 & _ & _ & He2 & _).
    unfold snakeInvariant. by rewrite He1, He2, Hc1, Hc2.
Qed.

Lemma fire_invariant rnd fuel e s s' :
  snakeInvariant s → fire rnd fuel e s = Some s' → snakeInvariant s'.
Proof.
  intros Hinv. destruct e; simpl.
  - unfold timerFires. destruct (scheduledInterval s).
    + by apply step_invariant.
    + by intros [= <-].
  - intros [= <-]. unfold setDirectionImmediate.
    repeat case_match; done.
  - case_decide; [by apply startGame_invariant|by intros [= <-]].
  - case_decide; by intros [= <-].
  - by intros [= <-].
Qed.

Lemma reachable_invariant rnd s : reachable rnd s → snakeInvariant s.
Proof.
  induction 1 as [fuel s0 s Hstart|fuel e s s' _ IH Hfire].
  - by eapply startGame_invariant.
  - by eapply fire_invariant.
Qed.

Lemma run_reachable rnd fuel es s s' :
  reachable rnd s → run rnd fuel es s = Some s' → reachable rnd s'.
Proof.
  revert s. induction es as [|e es IH]; intros s Hs; simpl.
  - by intros [= <-].
  - destruct (fire rnd fuel e s) as [s1|] eqn:Hfire; [|done]. simpl.
    apply IH. by eapply reachable_fire.
Qed.

(** C6. In every state reachable from [startGame] by timer ticks,
    direction inputs and the buttons, with a board of side 20: every
    snake cell is on the board, the snake cells are pairwise distinct,
    and the food cell is no snake cell. *)
Theorem reachable_snake_on_board (rnd : nat → Z) (s : State) :
  reachable rnd s →
  BOARD_SIZE = 20 ∧
  (∀ c, c ∈ snakeSegments s → 0 ≤ cell_x c < 20 ∧ 0 ≤ cell_y c < 20) ∧
  NoDup (snakeSegments s) ∧
  (foodCell s ∉ snakeSegments s).
Proof.
  intros (Hboard & Hdup & Hfood)%reachable_invariant.
  split; [done|]. split; [|done]. intros c Hc. apply (Hboard c Hc).
Qed.

Lemma reachable_snake_on_board_witness :
  NoDup (snakeSegments (gameWith [Cell 10 10; Cell 11 10] Right (Cell 0 0) None)) ∧
  (foodCell (gameWith [Cell 10 10; Cell 11 10] Right (Cell 0 0) None)
   ∉ snakeSegments (gameWith [Cell 10 10; Cell 11 10] Right (Cell 0 0) None)).
Proof.
  assert (reachable zeros
            (gameWith [Cell 10 10; Cell 11 10] Right (Cell 0 0) None)) as Hreach.
  { apply (reachable_fire zeros 1 Tick
             (gameWith initialSnake Right (Cell 0 0) None)); [|reflexivity].
    apply (reachable_start zeros 1 (initialState emptyStorage)). reflexivity. }
  destruct (reachable_snake_on_board zeros _ Hreach) as (_ & _ & Hdup & Hfood).
  split; assumption.
Defined.

(** ** A full board *)

Lemma pathCell_inBoard i : inBoard (pathCell i).
Proof.
  unfold pathCell, inBoard, BOARD_SIZE; simpl.
  change (20 * 20) with 400.
  pose proof (Z.mod_pos_bound (Z.of_nat i) 400 ltac:(lia)) as Hi.
  set (n := Z.of_nat i `mod` 400) in *.
  pose proof (Z.mod_pos_bound n 20 ltac:(lia)).
  assert (0 ≤ n / 20 < 20)
    by (split; [apply Z.div_pos; lia|apply Z.div_lt_upper_bound; lia]).
  destruct (Z.even (n / 20)); simpl; lia.
Qed.

Lemma pathRnd_in_range : rnd_in_range pathRnd.
Proof.
  intros k. unfold pathRnd.
  destruct (pathCell_inBoard (k / 2 + 2)) as [Hx Hy].
  by destruct (Nat.even k).
Qed.

Lemma zeros_in_range : rnd_in_range zeros.
Proof. intros k. unfold zeros, BOARD_SIZE. lia. Qed.

(** The walk visits every cell of the board. *)
Lemma pathSnake_covers_board c : inBoard c → c ∈ pathSnake 400.
Proof.
  assert (Forall (λ x, Forall (λ y, Cell x y ∈ pathSnake 400) (seqZ 0 20))
            (seqZ 0 20)) as Hall.
  { apply (bool_decide_unpack _). vm_compute. exact I. }
  destruct c as [x y]. unfold inBoard, BOARD_SIZE; simpl. intros [Hx Hy].
  rewrite Forall_forall in Hall.
  specialize (Hall x). rewrite elem_of_seqZ in Hall.
  specialize (Hall ltac:(lia)). rewrite Forall_forall in Hall.
  apply Hall. rewrite elem_of_seqZ. lia.
Qed.

(** The sample game is a legal play and ends in [fullBoardState]. *)
Lemma fillingGame_run :
  run pathRnd 1 fillingGame (initialState emptyStorage) = Some fullBoardState.
Proof. rewrite runOnCells_eq. vm_compute. reflexivity. Qed.

Lemma fullBoardState_reachable : reachable pathRnd fullBoardState.
Proof.
  pose proof fillingGame_run as Hrun.
  unfold fillingGame in Hrun.
  change (run pathRnd 1 (Start :: fillingInputs) (initialState emptyStorage))
    with (startGame pathRnd 1 (initialState emptyStorage)
          ≫= run pathRnd 1 fillingInputs) in Hrun.
  destruct (startGame pathRnd 1 (initialState emptyStorage)) as [s1|] eqn:Hstart;
    [|done].
  eapply run_reachable; [|exact Hrun].
  by eapply reachable_start.
Qed.

(** With every draw naming the same occupied cell the loop does not
    return although the board has free cells: termination rests on the
    draws. *)
Lemma getRandomEmptyCell_constant_draws fuel k :
  getRandomEmptyCell zeros fuel (occupiedSet [Cell 0 0]) k = None.
Proof.
  apply getRandomEmptyCell_blocks. intros j.
  apply occupiedSet_has. apply list_elem_of_here.
Qed.

(** C10. The board-filling growth.  [fullBoardState] is reached from
    the first render by a start and a legal sequence of direction inputs
    and ticks; the snake covers 399 cells and the food lies on the last
    free one, just ahead.  The tick that eats it calls
    [getRandomEmptyCell] with all 400 keys occupied, and the loop
    returns for no number of iterations, whatever the draws. *)
Theorem step_blocks_on_full_board :
  run pathRnd 1 fillingGame (initialState emptyStorage) = Some fullBoardState ∧
  reachable pathRnd fullBoardState ∧
  gameStatus fullBoardState = Running ∧
  length (snakeSegments fullBoardState) = 399%nat ∧
  (∀ rnd, rnd_in_range rnd →
     ∀ fuel, step rnd fuel fullBoardState = None ∧
             timerFires rnd fuel fullBoardState = None).
Proof.
  split; [apply fillingGame_run|]. split; [apply fullBoardState_reachable|].
  split; [done|]. split; [by vm_compute|].
  intros rnd Hrange fuel.
  assert (step rnd fuel fullBoardState = None) as Hstep.
  { rewrite (step_eat rnd fuel fullBoardState (pathCell 399)).
    - rewrite getRandomEmptyCell_blocks; [done|].
      intros j. apply occupiedSet_has.
      change (snakeSegments fullBoardState ++ [pathCell 399])
        with (pathSnake 400).
      by apply pathSnake_covers_board, drawnCell_inBoard.
    - by vm_compute.
    - apply pathCell_inBoard.
    - apply (bool_decide_unpack _). vm_compute. exact I.
    - done. }
  split; [exact Hstep|].
  change (timerFires rnd fuel fullBoardState) with (step rnd fuel fullBoardState).
  exact Hstep.
Qed.

Lemma step_blocks_on_full_board_witness :
  step zeros 1000 fullBoardState = None.
Proof.
  refine (proj1 (proj2 (proj2 (proj2 (proj2 step_blocks_on_full_board)))
                   zeros _ 1000%nat)).
  intros k. unfold zeros, BOARD_SIZE. lia.
Defined.

(** * Further properties of the page *)

(** ** Food placement and start *)

(** X1. [getRandomEmptyCell] returns exactly the first drawn cell whose
    key is not in the set, having made two draws per iteration: a
    result is outside the set (and on the board when the draws are in
    range); the call returns as soon as the number of iterations
    allowed exceeds the index of the first free draw; and when every
    draw is in the set it never returns. *)
Theorem getRandomEmptyCell_first_free (rnd : nat → Z) (occupied : gset string)
    (k : nat) :
  (∀ fuel c k', getRandomEmptyCell rnd fuel occupied k = Some (c, k') →
     (keyOf c ∉ occupied) ∧ (rnd_in_range rnd → inBoard c) ∧
     ∃ j, (j < fuel)%nat ∧ firstFree rnd occupied k j ∧
          c = drawnCell rnd k j ∧ k' = (k + 2 * (j + 1))%nat) ∧
  (∀ j fuel, firstFree rnd occupied k j → (j < fuel)%nat →
     getRandomEmptyCell rnd fuel occupied k
     = Some (drawnCell rnd k j, (k + 2 * (j + 1))%nat)) ∧
  ((∀ j, keyOf (drawnCell rnd k j) ∈ occupied) →
     ∀ fuel, getRandomEmptyCell rnd fuel occupied k = None).
Proof.
  split; [|split].
  - intros fuel c k' (j & Hj & Hfirst & -> & ->)%getRandomEmptyCell_Some.
    split; [apply Hfirst|]. split; [intros ?; by apply drawnCell_inBoard|].
    exists j. repeat split; try done; try apply Hfirst. lia.
  - intros j fuel Hfirst Hj. apply getRandomEmptyCell_Some.
    exists j. repeat split; try done; try apply Hfirst. lia.
  - apply getRandomEmptyCell_blocks.
Qed.

Lemma getRandomEmptyCell_first_free_witness :
  getRandomEmptyCell (λ k, Z.of_nat k / 2) 5 (occupiedSet [Cell 0 0; Cell 1 1]) 0
  = Some (Cell 2 2, 6%nat).
Proof.
  refine (proj1 (proj2 (getRandomEmptyCell_first_free (λ k, Z.of_nat k / 2)
            (occupiedSet [Cell 0 0; Cell 1 1]) 0)) 2%nat 5%nat _ _); [|lia].
  split.
  - apply (bool_decide_unpack _). vm_compute. exact I.
  - intros [|[|i]] Hi; [| |lia]; apply (bool_decide_unpack _); vm_compute; exact I.
Defined.

Lemma startGame_Some rnd fuel s s' :
  startGame rnd fuel s = Some s' ↔
  ∃ food k,
    getRandomEmptyCell rnd fuel (occupiedSet initialSnake) (randomCalls s)
    = Some (food, k) ∧
    s' = MkState initialSnake Right food Running 0 (highScore s)
           (pendingDirection s) (localStorage s) k.
Proof.
  unfold startGame.
  destruct (getRandomEmptyCell _ _ _ _) as [[food k]|]; simpl.
  - split; [intros [= <-]; by exists food, k|].
    by intros (? & ? & [= <- <-] & ->).
  - split; [done|]. by intros (? & ? & ? & _).
Qed.

(** X2. [startGame], from any state of the page: a result has the snake
    [(9,10),(10,10)], direction right, score 0, status running and the
    food on a board cell off the snake; the best score, the store and
    the direction buffer are those of before.  It returns as soon as a
    draw names a cell other than the two snake cells. *)
Theorem startGame_resets (rnd : nat → Z) (s : State) :
  (∀ fuel s', startGame rnd fuel s = Some s' →
     snakeSegments s' = [Cell 9 10; Cell 10 10] ∧
     movementDirection s' = Right ∧
     score s' = 0 ∧
     gameStatus s' = Running ∧
     (foodCell s' ∉ snakeSegments s') ∧
     (rnd_in_range rnd → inBoard (foodCell s')) ∧
     highScore s' = highScore s ∧
     localStorage s' = localStorage s ∧
     pendingDirection s' = pendingDirection s) ∧
  (∀ j, drawnCell rnd (randomCalls s) j ∉ [Cell 9 10; Cell 10 10] →
     ∃ s', ∀ fuel, (j < fuel)%nat → startGame rnd fuel s = Some s').
Proof.
  split.
  - intros fuel s' (food & k & Hplace & ->)%startGame_Some. simpl.
    destruct (getRandomEmptyCell_first_free rnd (occupiedSet initialSnake)
                (randomCalls s)) as (Hres & _).
    destruct (Hres _ _ _ Hplace) as (Hfree & Hboard & _).
    rewrite occupiedSet_has in Hfree. done.
  - intros j Hj.
    destruct (getRandomEmptyCell_terminates rnd (occupiedSet initialSnake)
                (randomCalls s) j) as (c & k' & Hret).
    { by rewrite occupiedSet_has. }
    eexists. intros fuel Hfuel. apply startGame_Some.
    exists c, k'. split; [by apply Hret|done].
Qed.

Lemma startGame_resets_witness :
  ∃ s', ∀ fuel, (0 < fuel)%nat →
    startGame zeros fuel (endGame (scoredGame 12 10)) = Some s'.
Proof.
  refine (proj2 (startGame_resets zeros (endGame (scoredGame 12 10))) 0%nat _).
  unfold drawnCell, zeros. rewrite !not_elem_of_cons.
  repeat split; try discriminate. apply not_elem_of_nil.
Defined.

(** ** The speed steps *)

(** X16. [speedMs] falls by 10 for every five points up to score 40 and
    stays at 60 from there on: it is [140 - 10 * floor(score/5)] below
    40, it is 60 exactly from 40 on, and it is the same for the five
    scores of a block. *)
Theorem speedMs_steps :
  (∀ sc, 0 ≤ sc < 40 → speedMs sc = 140 - 10 * (sc / 5)) ∧
  (∀ sc, 0 ≤ sc → (speedMs sc = 60 ↔ 40 ≤ sc)) ∧
  (∀ q r, 0 ≤ r < 5 → speedMs (5 * q + r) = speedMs (5 * q)).
Proof.
  split; [|split].
  - intros sc Hsc. rewrite speedMs_unfold.
    assert (0 ≤ sc / 5 < 8)
      by (split; [apply Z.div_pos; lia|apply Z.div_lt_upper_bound; lia]).
    lia.
  - intros sc Hsc. rewrite speedMs_unfold. split.
    + intros Heq. destruct (decide (40 ≤ sc)) as [|Hlt]; [done|].
      assert (sc / 5 < 8) by (apply Z.div_lt_upper_bound; lia).
      assert (0 ≤ sc / 5) by (apply Z.div_pos; lia). lia.
    + intros Hge. assert (8 ≤ sc / 5) by (apply Z.div_le_lower_bound; lia). lia.
  - intros q r Hr. rewrite !speedMs_unfold.
    replace ((5 * q + r) / 5) with q by (apply Z.div_unique with r; lia).
    replace (5 * q / 5) with q by (apply Z.div_unique with 0; lia). done.
Qed.

Lemma speedMs_steps_witness :
  speedMs 17 = 140 - 10 * (17 / 5) ∧ speedMs 17 = speedMs 15 ∧
  (speedMs 39 = 60 ↔ 40 ≤ 39).
Proof.
  destruct speedMs_steps as (Hlow & Hiff & Hblock).
  split; [apply Hlow; lia|].
  split; [apply (Hblock 3 2); lia|apply Hiff; lia].
Defined.

(** ** The reversal guard *)

Lemma opposite_involutive d : opposite (opposite d) = d.
Proof. by destruct d. Qed.

Lemma opposite_neq d : d ≠ opposite d.
Proof. by destruct d. Qed.

Lemma step_direction rnd fuel r s' :
  snakeSegments r ≠ [] → step rnd fuel r = Some s' →
  movementDirection s' = movementDirection (commitPending r) ∧
  pendingDirection s' = None.
Proof.
  intros Hne Hstep. unfold step in Hstep.
  destruct (last (snakeSegments r)) as [head|] eqn:Hlast;
    [|by apply last_None in Hlast].
  assert (pendingDirection (commitPending r) = None) as Hnone
    by (unfold commitPending; by destruct (pendingDirection r) eqn:Hp).
  pose proof (endGameIn_fields r (commitPending r)) as (_ & He1 & He2 & _).
  destruct (hitsWall _); [injection Hstep as <-; by rewrite He1, He2|].
  destruct (decide _); [injection Hstep as <-; by rewrite He1, He2|].
  destruct (_ && _); simpl in Hstep.
  - destruct (getRandomEmptyCell _ _ _ _) as [[food k]|]; [|done].
    by injection Hstep as <-.
  - by injection Hstep as <-.
Qed.

Lemma step_bufferSafe rnd fuel r s' :
  bufferSafe r → step rnd fuel r = Some s' → bufferSafe s'.
Proof.
  intros Hsafe Hstep.
  destruct (decide (snakeSegments r = [])) as [Hnil|Hne].
  - rewrite step_no_snake in Hstep by done. by injection Hstep as <-.
  - destruct (step_direction _ _ _ _ Hne Hstep) as [_ Hnone].
    unfold bufferSafe. by rewrite Hnone.
Qed.

Lemma setDirectionImmediate_bufferSafe next s :
  bufferSafe s → bufferSafe (setDirectionImmediate next s).
Proof.
  intros Hsafe. unfold setDirectionImmediate.
  case_decide; [done|].
  destruct (isReversal _ _) eqn:Hrev; [done|].
  unfold bufferSafe; simpl. intros [= ->].
  apply not_true_iff_false in Hrev. by rewrite isReversal_opposite in Hrev.
Qed.

Lemma fire_bufferSafe rnd fuel e s s' :
  e ≠ Start → bufferSafe s → fire rnd fuel e s = Some s' → bufferSafe s'.
Proof.
  intros He Hsafe. destruct e; simpl; [| |done| |].
  - unfold timerFires. destruct (scheduledInterval s).
    + by apply step_bufferSafe.
    + by intros [= <-].
  - intros [= <-]. by apply setDirectionImmediate_bufferSafe.
  - case_decide; by intros [= <-].
  - by intros [= <-].
Qed.

Lemma moveHead_back d d' c : moveHead d' (moveHead d c) = c → d' = opposite d.
Proof.
  rewrite !moveHead_cases. intros Heq.
  pose proof (f_equal cell_x Heq) as Hx. pose proof (f_equal cell_y Heq) as Hy.
  destruct c as [x y], d, d'; simpl in *; try done; lia.
Qed.

(** X4. Within a game the 180-degree guard holds.  After a start made
    with a buffer that does not hold "left", and through any ticks,
    direction inputs and clicks on End Game or Reset Best, the buffer
    never holds the reverse of the active direction.  From such a state
    a tick never makes the reverse of the direction it moved in the
    active one, and after a move the next tick does not aim at the cell
    the head has just left. *)
Theorem bufferSafe_within_game (rnd : nat → Z) (fuel : nat) :
  (∀ s0 s1, pendingDirection s0 ≠ Some Left →
     startGame rnd fuel s0 = Some s1 → bufferSafe s1) ∧
  (∀ es s s', Start ∉ es → bufferSafe s →
     run rnd fuel es s = Some s' → bufferSafe s') ∧
  (∀ r s', bufferSafe r → step rnd fuel r = Some s' →
     movementDirection s' ≠ opposite (movementDirection r)) ∧
  (∀ r s' h, bufferSafe r → nextHeadOf r = Some h → inBoard h →
     h ∉ snakeSegments r → step rnd fuel r = Some s' →
     nextHeadOf s' ≠ last (snakeSegments r)).
Proof.
  split; [|split; [|split]].
  - intros s0 s1 Hpend (food & k & _ & ->)%startGame_Some.
    unfold bufferSafe; simpl. congruence.
  - intros es. induction es as [|e es IH]; intros s s' Hstart Hsafe; simpl.
    + by intros [= <-].
    + apply not_elem_of_cons in Hstart as [He Hes].
      destruct (fire rnd fuel e s) as [s1|] eqn:Hfire; [|done]. simpl.
      apply IH; [done|]. by eapply fire_bufferSafe.
  - intros r s' Hsafe Hstep.
    destruct (decide (snakeSegments r = [])) as [Hnil|Hne].
    { rewrite step_no_snake in Hstep by done. injection Hstep as <-.
      apply opposite_neq. }
    destruct (step_direction _ _ _ _ Hne Hstep) as [-> _].
    unfold commitPending. unfold bufferSafe in Hsafe.
    destruct (pendingDirection r) as [d|]; simpl; [congruence|apply opposite_neq].
  - intros r s' h Hsafe Hnext Hin Hfree Hstep Hback.
    pose proof (step_new_head _ _ _ _ _ Hnext Hin Hfree Hstep) as Hlast'.
    apply nextHeadOf_Some in Hnext as (head & Hlast & ->).
    rewrite Hlast in Hback. apply nextHeadOf_Some in Hback as (h' & Hl & Hmove).
    assert (h' = moveHead (movementDirection r) head) as -> by congruence.
    symmetry in Hmove. apply moveHead_back in Hmove.
    assert (snakeSegments r ≠ []) as Hne by (by intros Hnil; rewrite Hnil in Hlast).
    destruct (step_direction _ _ _ _ Hne Hstep) as [Hdir _].
    rewrite Hdir in Hmove. unfold commitPending in Hmove.
    unfold bufferSafe in Hsafe.
    destruct (pendingDirection r) as [d|]; simpl in Hmove;
      [congruence|by apply opposite_neq in Hmove].
Qed.

Lemma bufferSafe_within_game_witness :
  bufferSafe (gameWith [Cell 10 10; Cell 11 10] Up (Cell 5 5) None) ∧
  movementDirection (gameWith [Cell 10 10; Cell 11 10] Up (Cell 5 5) None)
  ≠ opposite (movementDirection (freshGame (Cell 5 5) (Some Up))).
Proof.
  assert (bufferSafe (freshGame (Cell 5 5) (Some Up))) as Hsafe by discriminate.
  split.
  - refine (proj1 (proj2 (bufferSafe_within_game zeros 1)) [Tick]
              (freshGame (Cell 5 5) (Some Up)) _ _ Hsafe eq_refl).
    rewrite not_elem_of_cons. split; [discriminate|apply not_elem_of_nil].
  - exact (proj1 (proj2 (proj2 (bufferSafe_within_game zeros 1)))
             (freshGame (Cell 5 5) (Some Up)) _ Hsafe eq_refl).
Defined.

(** X3. [startGame] does not empty the direction buffer.  When a "left"
    is still buffered at a start (from the game before), the new game
    begins with direction right and "left" pending, an input the
    handler itself would refuse; the first tick makes "left" the active
    direction and the second tick runs the head back into the snake:
    the game is over after two ticks. *)
Theorem startGame_keeps_reverse_buffer (rnd : nat → Z) (s s1 : State)
    (fuel : nat) :
  pendingDirection s = Some Left →
  startGame rnd fuel s = Some s1 →
  pendingDirection s1 = Some Left ∧
  movementDirection s1 = Right ∧
  ¬ bufferSafe s1 ∧
  setDirectionImmediate Left (setPendingDirectionRef None s1)
  = setPendingDirectionRef None s1 ∧
  (∀ fuel2 fuel3 s2 s3,
     step rnd fuel2 s1 = Some s2 → step rnd fuel3 s2 = Some s3 →
     movementDirection s2 = Left ∧ gameStatus s2 = Running ∧
     gameStatus s3 = Over).
Proof.
  intros Hpend (food & k & Hplace & ->)%startGame_Some.
  apply getRandomEmptyCell_free in Hplace. rewrite occupiedSet_has in Hplace.
  split; [done|]. split; [done|].
  split; [intros Hsafe; by apply Hsafe; rewrite Hpend|]. split; [done|].
  intros fuel2 fuel3 s2 s3 Hstep2 Hstep3.
  set (s1 := MkState _ _ _ _ _ _ _ _ _) in *.
  assert (nextHeadOf s1 = Some (Cell 11 10)) as Hnext by done.
  assert (inBoard (Cell 11 10)) as Hin by (by vm_compute).
  assert (Cell 11 10 ∉ snakeSegments s1) as Hfree.
  { change (snakeSegments s1) with [Cell 9 10; Cell 10 10].
    rewrite !not_elem_of_cons.
    repeat split; try discriminate. apply not_elem_of_nil. }
  assert (snakeSegments s1 ≠ []) as Hne by done.
  destruct (step_direction _ _ _ _ Hne Hstep2) as [Hdir2 _].
  assert (movementDirection s2 = Left) as Hleft.
  { rewrite Hdir2. unfold commitPending, s1; simpl. by rewrite Hpend. }
  pose proof (step_no_collision_status _ _ _ _ _ Hnext Hin Hfree Hstep2) as Hrun2.
  pose proof (step_new_head _ _ _ _ _ Hnext Hin Hfree Hstep2) as Hlast2.
  split; [done|]. split; [done|].
  assert (Cell 10 10 ∈ snakeSegments s2) as Hneck.
  { destruct (decide (Cell 11 10 = foodCell s1)) as [Heat|Hmove].
    - rewrite (step_eat _ _ _ _ Hnext Hin Hfree Heat) in Hstep2.
      destruct (getRandomEmptyCell _ _ _ _) as [[food' k']|]; [|done].
      injection Hstep2 as <-. simpl.
      rewrite !elem_of_cons. auto.
    - rewrite (step_move _ _ _ _ Hnext Hin Hfree Hmove) in Hstep2.
      injection Hstep2 as <-. simpl. apply list_elem_of_here. }
  assert (nextHeadOf s2 = Some (Cell 10 10)) as Hnext2.
  { unfold nextHeadOf. by rewrite Hlast2, Hleft. }
  destruct (step_collision_result rnd fuel3 s2 (Cell 10 10) Hnext2)
    as (s3' & Hstep3' & Hover & _); [by right|].
  congruence.
Qed.

Lemma startGame_keeps_reverse_buffer_witness :
  pendingDirection (gameWith initialSnake Right (Cell 0 0) (Some Left)) = Some Left ∧
  ¬ bufferSafe (gameWith initialSnake Right (Cell 0 0) (Some Left)).
Proof.
  destruct (startGame_keeps_reverse_buffer zeros
              (setPendingDirectionRef (Some Left) (initialState emptyStorage))
              (gameWith initialSnake Right (Cell 0 0) (Some Left)) 1
              eq_refl eq_refl) as (Hpend & _ & Hunsafe & _).
  split; assumption.
Defined.

(** ** The board, cell by cell *)

Lemma boardCellAt_index x y :
  0 ≤ x < BOARD_SIZE → boardCellAt (BOARD_SIZE * y + x) = Cell x y.
Proof.
  unfold boardCellAt, BOARD_SIZE. intros Hx. f_equal.
  - symmetry. apply Z.mod_unique with y; lia.
  - symmetry. apply Z.div_unique with x; lia.
Qed.

Lemma boardCellAt_inBoard i :
  0 ≤ i < BOARD_SIZE * BOARD_SIZE → inBoard (boardCellAt i).
Proof.
  unfold boardCellAt, inBoard, BOARD_SIZE; simpl. intros Hi.
  pose proof (Z.mod_pos_bound i 20 ltac:(lia)).
  assert (0 ≤ i / 20 < 20)
    by (split; [apply Z.div_pos; lia|apply Z.div_lt_upper_bound; lia]).
  lia.
Qed.

Lemma boardCellAt_inj i j :
  boardCellAt i = boardCellAt j → i = j.
Proof.
  unfold boardCellAt, BOARD_SIZE. intros [= Hmod Hdiv].
  rewrite (Z.div_mod i 20), (Z.div_mod j 20) by lia. lia.
Qed.

Lemma elem_of_boardCells c : c ∈ boardCells ↔ inBoard c.
Proof.
  unfold boardCells. rewrite list_elem_of_fmap. split.
  - intros (i & -> & Hi%elem_of_seqZ). by apply boardCellAt_inBoard.
  - destruct c as [x y]. intros [Hx Hy]; simpl in *.
    exists (BOARD_SIZE * y + x). split; [by rewrite boardCellAt_index|].
    apply elem_of_seqZ. unfold BOARD_SIZE in *. lia.
Qed.

Lemma NoDup_boardCells : NoDup boardCells.
Proof.
  unfold boardCells. apply NoDup_fmap_2_strong; [|apply NoDup_seqZ].
  intros i j _ _. apply boardCellAt_inj.
Qed.

Lemma length_boardCells : length boardCells = 400%nat.
Proof. unfold boardCells. by rewrite length_fmap, length_seqZ. Qed.

(** Distinct cells of the board are at most 400. *)
Lemma board_pigeonhole (l : list GridCell) :
  NoDup l → (∀ c, c ∈ l → inBoard c) → (length l ≤ 400)%nat.
Proof.
  intros Hdup Hin. rewrite <-length_boardCells.
  apply submseteq_length, NoDup_submseteq; [done|].
  intros c Hc. by apply elem_of_boardCells, Hin.
Qed.

(** ** Length, score and shape of the snake *)

Lemma step_countsAgree rnd fuel r s' :
  countsAgree r → step rnd fuel r = Some s' → countsAgree s'.
Proof.
  intros [Hlen Hscore] Hstep.
  pose proof (commitPending_fields r) as (Hc1 & _ & _ & Hc2 & _).
  destruct (nextHeadOf r) as [h|] eqn:Hnext.
  2:{ apply nextHeadOf_None in Hnext. rewrite step_no_snake in Hstep by done.
      by injection Hstep as <-. }
  destruct (decide (inBoard h ∧ h ∉ snakeSegments r)) as [[Hin Hfree]|Hhit].
  - destruct (decide (h = foodCell r)) as [Heat|Hmove].
    + rewrite (step_eat _ _ _ _ Hnext Hin Hfree Heat) in Hstep.
      destruct (getRandomEmptyCell _ _ _ _) as [[food k]|]; [|done].
      injection Hstep as <-. unfold countsAgree; simpl.
      rewrite length_app; simpl. lia.
    + rewrite (step_move _ _ _ _ Hnext Hin Hfree Hmove) in Hstep.
      injection Hstep as <-. unfold countsAgree; simpl.
      apply nextHeadOf_Some in Hnext as (head & Hlast & _).
      assert (snakeSegments r ≠ []) as Hne by (by intros Hnil; rewrite Hnil in Hlast).
      rewrite tail_snoc, length_tail_snoc by done. lia.
  - assert (¬ inBoard h ∨ h ∈ snakeSegments r) as Hhit'.
    { destruct (decide (inBoard h)); [|by left].
      destruct (decide (h ∈ snakeSegments r)); [by right|]. by destruct Hhit. }
    rewrite (step_collision _ _ _ _ Hnext Hhit') in Hstep.
    injection Hstep as <-.
    pose proof (endGameIn_fields r (commitPending r))
      as (He1 & _ & _ & _ & He2 & _).
    unfold countsAgree. rewrite He1, He2, Hc1, Hc2. done.
Qed.

Lemma step_foodOnBoard rnd fuel r s' :
  rnd_in_range rnd → inBoard (foodCell r) →
  step rnd fuel r = Some s' → inBoard (foodCell s').
Proof.
  intros Hrange Hfood Hstep. unfold step in Hstep.
  pose proof (commitPending_fields r) as (_ & Hc & _).
  pose proof (endGameIn_fields r (commitPending r)) as (_ & _ & _ & He & _).
  destruct (last (snakeSegments r)) as [head|]; [|by injection Hstep as <-].
  destruct (hitsWall _); [injection Hstep as <-; by rewrite He, Hc|].
  destruct (decide _); [injection Hstep as <-; by rewrite He, Hc|].
  destruct (_ && _); simpl in Hstep.
  - destruct (getRandomEmptyCell _ _ _ _) as [[food k]|] eqn:Hplace; [|done].
    injection Hstep as <-. simpl.
    apply getRandomEmptyCell_Some in Hplace as (j & _ & _ & -> & _).
    by apply drawnCell_inBoard.
  - injection Hstep as <-. simpl. by rewrite Hc.
Qed.

Lemma reachable_countsAgree rnd s : reachable rnd s → countsAgree s.
Proof.
  induction 1 as [fuel s0 s Hstart|fuel e s s' _ IH Hfire].
  - apply startGame_Some in Hstart as (food & k & _ & ->). by split.
  - destruct e; simpl in Hfire.
    + unfold timerFires in Hfire. destruct (scheduledInterval s).
      * by eapply step_countsAgree.
      * by injection Hfire as <-.
    + injection Hfire as <-. unfold setDirectionImmediate.
      repeat case_match; done.
    + case_decide; [|by injection Hfire as <-].
      apply startGame_Some in Hfire as (food & k & _ & ->). by split.
    + case_decide; by injection Hfire as <-.
    + by injection Hfire as <-.
Qed.

Lemma reachable_foodOnBoard rnd s :
  rnd_in_range rnd → reachable rnd s → inBoard (foodCell s).
Proof.
  intros Hrange.
  assert (∀ fuel s0 s1, startGame rnd fuel s0 = Some s1 → inBoard (foodCell s1))
    as Hstart.
  { intros fuel s0 s1 (food & k & Hplace & ->)%startGame_Some. simpl.
    apply getRandomEmptyCell_Some in Hplace as (j & _ & _ & -> & _).
    by apply drawnCell_inBoard. }
  induction 1 as [fuel s0 s Hs|fuel e s s' _ IH Hfire]; [by eapply Hstart|].
  destruct e; simpl in Hfire.
  - unfold timerFires in Hfire. destruct (scheduledInterval s).
    + by eapply step_foodOnBoard.
    + by injection Hfire as <-.
  - injection Hfire as <-. unfold setDirectionImmediate.
    repeat case_match; done.
  - case_decide; [by eapply Hstart|by injection Hfire as <-].
  - case_decide; by injection Hfire as <-.
  - by injection Hfire as <-.
Qed.

(** X5. In every state reachable from [startGame] the snake is two
    cells longer than the score, the score is not negative, and, the
    draws being in range, the food is on the board, the snake has at
    most 399 cells and the score is at most 397. *)
Theorem reachable_length_score (rnd : nat → Z) (s : State) :
  reachable rnd s →
  Z.of_nat (length (snakeSegments s)) = score s + 2 ∧
  0 ≤ score s ∧
  (2 ≤ length (snakeSegments s))%nat ∧
  (rnd_in_range rnd →
     inBoard (foodCell s) ∧
     (length (snakeSegments s) ≤ 399)%nat ∧
     score s ≤ 397).
Proof.
  intros Hreach.
  destruct (reachable_countsAgree _ _ Hreach) as [Hlen Hscore].
  split; [done|]. split; [done|]. split; [lia|].
  intros Hrange.
  pose proof (reachable_foodOnBoard _ _ Hrange Hreach) as Hfood.
  destruct (reachable_invariant _ _ Hreach) as (Hboard & Hdup & Hoff).
  assert (length (foodCell s :: snakeSegments s) ≤ 400)%nat as Hle.
  { apply board_pigeonhole.
    - by apply NoDup_cons.
    - intros c [->|Hc]%elem_of_cons; auto. }
  simpl in Hle. split; [done|]. lia.
Qed.

Lemma reachable_length_score_witness :
  Z.of_nat (length (snakeSegments
     (gameWith [Cell 10 10; Cell 11 10] Right (Cell 0 0) None)))
  = score (gameWith [Cell 10 10; Cell 11 10] Right (Cell 0 0) None) + 2 ∧
  score (gameWith [Cell 10 10; Cell 11 10] Right (Cell 0 0) None) ≤ 397.
Proof.
  assert (reachable zeros
            (gameWith [Cell 10 10; Cell 11 10] Right (Cell 0 0) None)) as Hreach.
  { apply (reachable_fire zeros 1 Tick
             (gameWith initialSnake Right (Cell 0 0) None)); [|reflexivity].
    apply (reachable_start zeros 1 (initialState emptyStorage)). reflexivity. }
  destruct (reachable_length_score zeros _ Hreach) as (Hlen & _ & _ & Hmax).
  split; [exact Hlen|]. apply Hmax.
  intros k. unfold zeros, BOARD_SIZE. lia.
Defined.

Lemma adjacent_moveHead d c : adjacent c (moveHead d c).
Proof.
  rewrite moveHead_cases. unfold adjacent. destruct c as [x y], d; simpl; lia.
Qed.

Lemma chained_tail l : chained l → chained (tail l).
Proof. destruct l as [|a [|b l]]; simpl; tauto. Qed.

Lemma chained_snoc l a b :
  chained l → last l = Some a → adjacent a b → chained (l ++ [b]).
Proof.
  induction l as [|c l IH]; [done|]. intros Hl Hlast Hadj.
  destruct l as [|c' l].
  - injection Hlast as ->. simpl. done.
  - destruct Hl as [Hcc Hl]. split; [done|].
    apply IH; [done| |done]. by rewrite last_cons_cons in Hlast.
Qed.

Lemma step_chained rnd fuel r s' :
  chained (snakeSegments r) → step rnd fuel r = Some s' →
  chained (snakeSegments s').
Proof.
  intros Hchain Hstep. unfold step in Hstep.
  pose proof (commitPending_fields r) as (Hc & _).
  pose proof (endGameIn_fields r (commitPending r)) as (He & _).
  destruct (last (snakeSegments r)) as [head|] eqn:Hlast;
    [|by injection Hstep as <-].
  assert (chained (snakeSegments r ++ [moveHead (movementDirection r) head]))
    as Hgrown by (eapply chained_snoc; eauto using adjacent_moveHead).
  destruct (hitsWall _); [injection Hstep as <-; by rewrite He, Hc|].
  destruct (decide _); [injection Hstep as <-; by rewrite He, Hc|].
  destruct (_ && _); simpl in Hstep.
  - destruct (getRandomEmptyCell _ _ _ _) as [[food k]|]; [|done].
    by injection Hstep as <-.
  - injection Hstep as <-. simpl. by apply chained_tail.
Qed.

(** X6. In every state reachable from [startGame] the snake is one
    connected line: each segment lies side by side with, or right above
    or below, the segment that follows it. *)
Theorem reachable_snake_chained (rnd : nat → Z) (s : State) :
  reachable rnd s → chained (snakeSegments s).
Proof.
  assert (chained initialSnake) as Hinit by (by vm_compute).
  induction 1 as [fuel s0 s Hstart|fuel e s s' _ IH Hfire].
  - by apply startGame_Some in Hstart as (food & k & _ & ->).
  - destruct e; simpl in Hfire.
    + unfold timerFires in Hfire. destruct (scheduledInterval s).
      * by eapply step_chained.
      * by injection Hfire as <-.
    + injection Hfire as <-. unfold setDirectionImmediate.
      repeat case_match; done.
    + case_decide; [|by injection Hfire as <-].
      by apply startGame_Some in Hfire as (food & k & _ & ->).
    + case_decide; by injection Hfire as <-.
    + by injection Hfire as <-.
Qed.

Lemma reachable_snake_chained_witness :
  chained [Cell 10 10; Cell 11 10].
Proof.
  apply (reachable_snake_chained zeros
           (gameWith [Cell 10 10; Cell 11 10] Right (Cell 0 0) None)).
  apply (reachable_fire zeros 1 Tick
           (gameWith initialSnake Right (Cell 0 0) None)); [|reflexivity].
  apply (reachable_start zeros 1 (initialState emptyStorage)). reflexivity.
Defined.

(** ** The best score and its stored copy *)

Lemma endGameIn_best r s :
  highScore (endGameIn r s)
  = (if decide (score r > highScore r) then score r else highScore s) ∧
  localStorage (endGameIn r s)
  = (if decide (score r > highScore r)
     then setItem LOCAL_STORAGE_KEY (pretty (score r)) (localStorage s)
     else localStorage s).
Proof. unfold endGameIn. by case_decide. Qed.

Lemma getItem_setItem key value st : getItem key (setItem key value st) = Some value.
Proof. unfold getItem, setItem; simpl. apply lookup_insert_eq. Qed.

Lemma getItem_removeItem key st : getItem key (removeItem key st) = None.
Proof. unfold getItem, removeItem; simpl. apply lookup_delete_eq. Qed.

(** What a tick does to the best score and the store. *)
Lemma step_best rnd fuel r s' :
  step rnd fuel r = Some s' →
  (highScore s' = highScore r ∧ localStorage s' = localStorage r) ∨
  (score r > highScore r ∧ highScore s' = score r ∧
   localStorage s'
   = setItem LOCAL_STORAGE_KEY (pretty (score r)) (localStorage r)).
Proof.
  intros Hstep. unfold step in Hstep.
  pose proof (commitPending_fields r) as (_ & _ & _ & _ & Hc1 & Hc2 & _).
  destruct (endGameIn_best r (commitPending r)) as [He1 He2].
  rewrite Hc1, Hc2 in *.
  assert ((highScore (endGameIn r (commitPending r)) = highScore r ∧
           localStorage (endGameIn r (commitPending r)) = localStorage r) ∨
          (score r > highScore r ∧
           highScore (endGameIn r (commitPending r)) = score r ∧
           localStorage (endGameIn r (commitPending r))
           = setItem LOCAL_STORAGE_KEY (pretty (score r)) (localStorage r)))
    as Hend by (rewrite He1, He2; case_decide; auto).
  destruct (last (snakeSegments r)) as [head|]; [|injection Hstep as <-; auto].
  destruct (hitsWall _); [by injection Hstep as <-|].
  destruct (decide _); [by injection Hstep as <-|].
  destruct (_ && _); simpl in Hstep.
  - destruct (getRandomEmptyCell _ _ _ _) as [[food k]|]; [|done].
    injection Hstep as <-. simpl. auto.
  - injection Hstep as <-. simpl. auto.
Qed.

Lemma fire_best rnd fuel e s s' :
  fire rnd fuel e s = Some s' →
  (highScore s' = highScore s ∧ localStorage s' = localStorage s) ∨
  (score s > highScore s ∧ highScore s' = score s ∧
   localStorage s'
   = setItem LOCAL_STORAGE_KEY (pretty (score s)) (localStorage s)) ∨
  (e = ResetButton ∧ s' = resetBest s).
Proof.
  destruct e; simpl.
  - unfold timerFires. destruct (scheduledInterval s).
    + intros Hstep. destruct (step_best _ _ _ _ Hstep); auto.
    + intros [= <-]. auto.
  - intros [= <-]. left. unfold setDirectionImmediate. by repeat case_match.
  - case_decide; [|intros [= <-]; auto].
    intros (food & k & _ & ->)%startGame_Some. auto.
  - case_decide; intros [= <-]; auto.
  - intros [= <-]. auto.
Qed.

(** X7. The stored best score follows the displayed one.  On the first
    render over an empty store the two agree (0, nothing stored), and
    every tick, direction input and click keeps them agreeing: at any
    time the item [snakeHighScore] holds the decimal numeral of
    [highScore], or nothing is stored and [highScore] is 0.  After
    Reset Best the best score is 0 and the item is gone. *)
Theorem bestStored_kept (rnd : nat → Z) (fuel : nat) :
  bestStored (initialState emptyStorage) ∧
  (∀ es s s', bestStored s → run rnd fuel es s = Some s' → bestStored s') ∧
  (∀ s, highScore (resetBest s) = 0 ∧
        getItem LOCAL_STORAGE_KEY (localStorage (resetBest s)) = None).
Proof.
  split; [by right|]. split.
  - intros es. induction es as [|e es IH]; intros s s' Hstored; simpl.
    { by intros [= <-]. }
    destruct (fire rnd fuel e s) as [s1|] eqn:Hfire; [|done]. simpl.
    apply IH. unfold bestStored in *.
    destruct (fire_best _ _ _ _ _ Hfire)
      as [[-> ->]|[(_ & -> & ->)|[_ ->]]]; [done| |].
    + left. apply getItem_setItem.
    + right. split; [done|]. apply getItem_removeItem.
  - intros s. split; [done|]. apply getItem_removeItem.
Qed.

Lemma bestStored_kept_witness :
  bestStored
    (MkState [Cell 17 10; Cell 18 10; Cell 19 10] Right (Cell 0 0) Over 1 1 None
       (setItem LOCAL_STORAGE_KEY "1" emptyStorage) 4) ∧
  getItem LOCAL_STORAGE_KEY
    (localStorage (resetBest
       (MkState [Cell 17 10; Cell 18 10; Cell 19 10] Right (Cell 0 0) Over 1 1 None
          (setItem LOCAL_STORAGE_KEY "1" emptyStorage) 4))) = None.
Proof.
  assert (run foodAheadRnd 1 (Start :: replicate 10 Tick)
            (initialState emptyStorage)
          = Some (MkState [Cell 17 10; Cell 18 10; Cell 19 10] Right (Cell 0 0)
                    Over 1 1 None
                    (setItem LOCAL_STORAGE_KEY "1" emptyStorage) 4)) as Hrun
    by (rewrite runOnCells_eq; vm_compute; reflexivity).
  split.
  - exact (proj1 (proj2 (bestStored_kept foodAheadRnd 1))
             (Start :: replicate 10 Tick) (initialState emptyStorage) _
             (proj1 (bestStored_kept foodAheadRnd 1)) Hrun).
  - exact (proj2 (proj2 (proj2 (bestStored_kept foodAheadRnd 1)) _)).
Defined.

(** X8. [endGame] makes the best score the larger of the score and the
    best score, and ending an ended game again changes nothing: the
    second call finds the score no longer above the best score and
    writes nothing. *)
Theorem endGame_max_idempotent (s : State) :
  highScore (endGame s) = Z.max (score s) (highScore s) ∧
  endGame (endGame s) = endGame s.
Proof.
  unfold endGame, endGameIn. split.
  - case_decide; simpl; lia.
  - destruct s as [sn d f st sc hs p ls k]; simpl.
    destruct (decide (sc > hs)) as [Hgt|Hle]; simpl.
    + by rewrite decide_False by lia.
    + by rewrite decide_False by done.
Qed.

(** X9. Only Reset Best lowers the best score: through any ticks,
    direction inputs, starts and clicks on End Game the best score never
    decreases. *)
Theorem highScore_never_decreases (rnd : nat → Z) (fuel : nat)
    (es : list Event) (s s' : State) :
  ResetButton ∉ es → run rnd fuel es s = Some s' →
  highScore s ≤ highScore s'.
Proof.
  revert s. induction es as [|e es IH]; intros s Hreset; simpl.
  - by intros [= <-].
  - apply not_elem_of_cons in Hreset as [He Hes].
    destruct (fire rnd fuel e s) as [s1|] eqn:Hfire; [|done]. simpl.
    intros Hrun. specialize (IH s1 Hes Hrun).
    destruct (fire_best _ _ _ _ _ Hfire) as [[Heq _]|[(Hgt & Heq & _)|[-> _]]];
      [lia|lia|done].
Qed.

Lemma highScore_never_decreases_witness :
  highScore (gameWith [Cell 18 10; Cell 19 10] Right (Cell 5 5) None) ≤ 0.
Proof.
  refine (highScore_never_decreases zeros 0 [Tick; Press Up; EndButton]
            (gameWith [Cell 18 10; Cell 19 10] Right (Cell 5 5) None) _ _ eq_refl).
  rewrite !not_elem_of_cons.
  repeat split; try discriminate. apply not_elem_of_nil.
Defined.

(** ** The mount effect *)

Lemma snakeSet_fold (l : list GridCell) (acc : gset string) (key : string) :
  key ∈ foldl (λ acc seg, acc ∪ {[ keyOf seg ]}) acc l ↔
  key ∈ acc ∨ ∃ c, c ∈ l ∧ key = keyOf c.
Proof.
  revert acc. induction l as [|a l IH]; intros acc; simpl.
  - split; [auto|]. intros [|(c & Hc & _)]; [done|]. by apply elem_of_nil in Hc.
  - rewrite IH, elem_of_union, elem_of_singleton. split.
    + intros [[Hacc | ->]|(c & Hc & ->)]; [auto| |].
      * right. exists a. split; [apply list_elem_of_here|done].
      * right. exists c. split; [by apply list_elem_of_further|done].
    + intros [|(c & [->|Hc]%elem_of_cons & ->)]; [auto|auto|].
      right. by exists c.
Qed.

Lemma snakeSet_occupiedSet s : snakeSet s = occupiedSet (snakeSegments s).
Proof.
  apply set_eq. intros key. unfold snakeSet, occupiedSet.
  rewrite snakeSet_fold, elem_of_list_to_set, list_elem_of_fmap.
  split.
  - intros [Hempty|(c & Hc & ->)]; [by apply elem_of_empty in Hempty|by exists c].
  - intros (c & -> & Hc). right. by exists c.
Qed.

Lemma pretty_N_go_nonempty n s : s ≠ ""%string → pretty_N_go n s ≠ ""%string.
Proof.
  revert s. induction (N.lt_wf_0 n) as [n _ IH]; intros s Hs.
  destruct (decide (n = 0%N)) as [->|Hn]; [by rewrite pretty_N_go_0|].
  rewrite pretty_N_go_step by lia. apply IH; [apply N.div_lt; lia|done].
Qed.

Lemma pretty_Z_nonempty (z : Z) : pretty z ≠ ""%string.
Proof.
  destruct z as [|p|p]; [done| |done].
  change (pretty (Z.pos p)) with (pretty (N.pos p)).
  unfold pretty, pretty_N. rewrite decide_False by done.
  rewrite pretty_N_go_step by lia. by apply pretty_N_go_nonempty.
Qed.

Lemma mountEffect_Some Number rnd fuel s s' :
  mountEffect Number rnd fuel s = Some s' ↔
  ∃ food k,
    getRandomEmptyCell rnd fuel (occupiedSet (snakeSegments s)) (randomCalls s)
    = Some (food, k) ∧
    s' = setFoodCell food (setRandomCalls k
           (match
              match getItem LOCAL_STORAGE_KEY (localStorage s) with
              | None => Some 0
              | Some str => if decide (str = ""%string) then Some 0 else Number str
              end
            with
            | Some v => setHighScore v s
            | None => s
            end)).
Proof.
  unfold mountEffect.
  set (saved := match getItem _ _ with None => _ | Some str => _ end).
  set (s1 := match saved with Some v => setHighScore v s | None => s end).
  assert (snakeSet s1 = occupiedSet (snakeSegments s)) as ->
    by (rewrite snakeSet_occupiedSet; unfold s1; by destruct saved).
  assert (randomCalls s1 = randomCalls s) as ->
    by (unfold s1; by destruct saved).
  destruct (getRandomEmptyCell _ _ _ _) as [[food k]|]; simpl.
  - split; [intros [= <-]; by exists food, k|].
    by intros (? & ? & [= <- <-] & ->).
  - split; [done|]. by intros (? & ? & ? & _).
Qed.

Lemma mount_frame food k (saved : option Z) st :
  let s' := setFoodCell food (setRandomCalls k
              (match saved with
               | Some v => setHighScore v (initialState st)
               | None => initialState st
               end)) in
  gameStatus s' = Idle ∧ snakeSegments s' = initialSnake ∧ score s' = 0 ∧
  foodCell s' = food ∧ localStorage s' = st ∧ highScore s' = default 0 saved.
Proof. by destruct saved. Qed.

(** X10. The mount effect on the first render over a store [st].  A
    result is still idle with the initial snake, has the food on a cell
    off the snake (a board cell when the draws are in range) and leaves
    the store alone.  The best score is 0 when nothing or the empty
    string is stored, and otherwise the stored string as a number, 0
    standing in when that is NaN.  The effect returns as soon as a draw
    names a cell off the snake. *)
Theorem mountEffect_first_render (Number : string → option Z) (rnd : nat → Z)
    (st : Storage) :
  (∀ fuel s', mountEffect Number rnd fuel (initialState st) = Some s' →
     gameStatus s' = Idle ∧
     snakeSegments s' = [Cell 9 10; Cell 10 10] ∧
     score s' = 0 ∧
     snakeInvariant s' ∧
     (rnd_in_range rnd → inBoard (foodCell s')) ∧
     localStorage s' = st ∧
     (getItem LOCAL_STORAGE_KEY st = None ∨
      getItem LOCAL_STORAGE_KEY st = Some ""%string → highScore s' = 0) ∧
     (∀ str, getItem LOCAL_STORAGE_KEY st = Some str → str ≠ ""%string →
        highScore s' = default 0 (Number str))) ∧
  (∀ j, drawnCell rnd 0 j ∉ [Cell 9 10; Cell 10 10] →
     ∃ s', ∀ fuel, (j < fuel)%nat →
       mountEffect Number rnd fuel (initialState st) = Some s').
Proof.
  split.
  - intros fuel s' (food & k & Hplace & ->)%mountEffect_Some.
    simpl in Hplace.
    pose proof (getRandomEmptyCell_free _ _ _ _ _ _ Hplace) as Hfree.
    rewrite occupiedSet_has in Hfree.
    apply getRandomEmptyCell_Some in Hplace as (j & _ & _ & Hfood & _).
    change (localStorage (initialState st)) with st.
    destruct (mount_frame food k
                (match getItem LOCAL_STORAGE_KEY st with
                 | None => Some 0
                 | Some str => if decide (str = ""%string) then Some 0 else Number str
                 end) st) as (H1 & H2 & H3 & H4 & H5 & H6).
    split; [done|]. split; [done|]. split; [done|].
    split.
    { unfold snakeInvariant. rewrite H2, H4.
      split; [apply initialSnake_inBoard|]. split; [apply initialSnake_NoDup|done]. }
    split; [intros Hrange; rewrite H4, Hfood; by apply drawnCell_inBoard|].
    split; [done|]. rewrite H6. split.
    + intros [->| ->]; [done|]. by rewrite decide_True.
    + intros str -> Hne. by rewrite decide_False.
  - intros j Hj.
    destruct (getRandomEmptyCell_terminates rnd (occupiedSet initialSnake) 0 j)
      as (c & k' & Hret).
    { by rewrite occupiedSet_has. }
    eexists. intros fuel Hfuel. apply mountEffect_Some.
    exists c, k'. split; [by apply Hret|reflexivity].
Qed.

Lemma mountEffect_first_render_witness :
  ∃ s', ∀ fuel, (0 < fuel)%nat →
    mountEffect numberOf12 zeros fuel (initialState emptyStorage) = Some s'.
Proof.
  refine (proj2 (mountEffect_first_render numberOf12 zeros emptyStorage) 0%nat _).
  unfold drawnCell, zeros. rewrite !not_elem_of_cons.
  repeat split; try discriminate. apply not_elem_of_nil.
Defined.

(** X11. Reload.  When the stored best score agrees with the displayed
    one at the end of a session, and [Number] reads the decimal numeral
    of that score back as the score, the mount effect of the next page
    load over the same store shows the same best score, and the two
    agree again. *)
Theorem mountEffect_restores_best (Number : string → option Z)
    (rnd : nat → Z) (fuel : nat) (s s' : State) :
  bestStored s →
  Number (pretty (highScore s)) = Some (highScore s) →
  mountEffect Number rnd fuel (initialState (localStorage s)) = Some s' →
  highScore s' = highScore s ∧ localStorage s' = localStorage s ∧ bestStored s'.
Proof.
  intros Hstored Hnum (food & k & _ & ->)%mountEffect_Some.
  unfold bestStored in *. simpl.
  destruct Hstored as [Hitem|[Hzero Hitem]]; rewrite Hitem.
  - rewrite decide_False by apply pretty_Z_nonempty.
    rewrite Hnum. simpl. auto.
  - simpl. rewrite Hzero. auto.
Qed.

Lemma mountEffect_restores_best_witness :
  highScore (setFoodCell (Cell 0 0) (setRandomCalls 2 (setHighScore 12
    (initialState (localStorage (endGame (scoredGame 12 0)))))))
  = highScore (endGame (scoredGame 12 0)).
Proof.
  exact (proj1 (mountEffect_restores_best numberOf12 zeros 1
           (endGame (scoredGame 12 0)) _ (or_introl eq_refl) eq_refl eq_refl)).
Defined.

(** ** The keyboard *)

(** X12. What a key can do depends on the status.  When the game is
    over no key changes anything (the keyboard cannot restart a game).
    When it is idle, space and Enter run [startGame] and every other
    key changes nothing.  When it is running a key changes at most the
    direction buffer: it never starts or ends a game. *)
Theorem keydown_by_status (toLowerCase : string → string) (rnd : nat → Z)
    (fuel : nat) (eKey : string) (s : State) :
  (gameStatus s = Over → keydown toLowerCase rnd fuel eKey s = Some s) ∧
  (gameStatus s = Idle →
     (eKey = " "%string ∨ eKey = "Enter"%string →
      keydown toLowerCase rnd fuel eKey s = startGame rnd fuel s) ∧
     (eKey ≠ " "%string → eKey ≠ "Enter"%string →
      keydown toLowerCase rnd fuel eKey s = Some s)) ∧
  (gameStatus s = Running →
     ∃ buffer, keydown toLowerCase rnd fuel eKey s
               = Some (setPendingDirectionRef buffer s)).
Proof.
  unfold keydown. split; [|split].
  - intros Hover. rewrite decide_False by (intros [? _]; congruence).
    rewrite decide_True by congruence. done.
  - intros Hidle. split.
    + intros Hkey. by rewrite decide_True.
    + intros Hsp Hen. rewrite decide_False by (intros [_ [?|?]]; done).
      rewrite decide_True by congruence. done.
  - intros Hrun. rewrite decide_False by (intros [? _]; congruence).
    rewrite decide_False by (by intros []).
    assert (Some s = Some (setPendingDirectionRef (pendingDirection s) s)) as Hsame
      by (by destruct s).
    repeat case_decide; simpl; try case_match; eauto.
Qed.

Lemma keydown_by_status_witness :
  keydown asciiLower zeros 1 "Enter" (endGame (scoredGame 3 0))
  = Some (endGame (scoredGame 3 0)) ∧
  keydown asciiLower zeros 1 "Enter" (initialState emptyStorage)
  = startGame zeros 1 (initialState emptyStorage).
Proof.
  split.
  - exact (proj1 (keydown_by_status asciiLower zeros 1 "Enter"
                    (endGame (scoredGame 3 0))) eq_refl).
  - exact (proj1 (proj1 (proj2 (keydown_by_status asciiLower zeros 1 "Enter"
                    (initialState emptyStorage))) eq_refl) (or_intror eq_refl)).
Defined.

(** X13. In a running game the keyboard does what the direction
    controls do: a key whose lower-case form is "w" or "arrowup" acts as
    [setDirectionImmediate] on "up", "s" or "arrowdown" on "down", "a"
    or "arrowleft" on "left", "d" or "arrowright" on "right", reversal
    guard included; any other key changes nothing. *)
Theorem keydown_as_setDirectionImmediate (toLowerCase : string → string)
    (rnd : nat → Z) (fuel : nat) (eKey : string) (s : State) :
  gameStatus s = Running →
  (toLowerCase eKey = "w"%string ∨ toLowerCase eKey = "arrowup"%string →
   keydown toLowerCase rnd fuel eKey s = Some (setDirectionImmediate Up s)) ∧
  (toLowerCase eKey = "s"%string ∨ toLowerCase eKey = "arrowdown"%string →
   keydown toLowerCase rnd fuel eKey s = Some (setDirectionImmediate Down s)) ∧
  (toLowerCase eKey = "a"%string ∨ toLowerCase eKey = "arrowleft"%string →
   keydown toLowerCase rnd fuel eKey s = Some (setDirectionImmediate Left s)) ∧
  (toLowerCase eKey = "d"%string ∨ toLowerCase eKey = "arrowright"%string →
   keydown toLowerCase rnd fuel eKey s = Some (setDirectionImmediate Right s)) ∧
  (toLowerCase eKey ∉ [ "w"; "arrowup"; "s"; "arrowdown";
                        "a"; "arrowleft"; "d"; "arrowright" ]%string →
   keydown toLowerCase rnd fuel eKey s = Some s).
Proof.
  intros Hrun. unfold keydown, setDirectionImmediate.
  rewrite (decide_False (P := _ ∧ _)) by (intros [? _]; congruence).
  rewrite !(decide_False (P := gameStatus s ≠ Running)) by (by intros []).
  repeat split.
  1-4: intros [-> | ->]; simpl; by destruct (isReversal _ _).
  rewrite !not_elem_of_cons. intros (? & ? & ? & ? & ? & ? & ? & ? & _).
  by rewrite !decide_False by (intros [?|?]; done).
Qed.

Lemma keydown_as_setDirectionImmediate_witness :
  keydown asciiLower zeros 0 "W" (freshGame (Cell 5 5) None)
  = Some (setDirectionImmediate Up (freshGame (Cell 5 5) None)) ∧
  keydown asciiLower zeros 0 "ArrowLeft" (freshGame (Cell 5 5) None)
  = Some (freshGame (Cell 5 5) None).
Proof.
  split.
  - exact (proj1 (keydown_as_setDirectionImmediate asciiLower zeros 0 "W"
                    (freshGame (Cell 5 5) None) eq_refl) (or_introl eq_refl)).
  - refine (proj1 (proj2 (proj2 (keydown_as_setDirectionImmediate asciiLower
              zeros 0 "ArrowLeft" (freshGame (Cell 5 5) None) eq_refl))) _).
    right. reflexivity.
Defined.

(** ** The board view *)

Lemma cellTokens_flags (s : State) (i : Z) :
  ("cell"%string ∈ cellTokens s i) ∧
  ("snake"%string ∈ cellTokens s i ↔
   isSnakeCell s (i mod BOARD_SIZE) (i / BOARD_SIZE) = true) ∧
  ("head"%string ∈ cellTokens s i ↔
   match last (snakeSegments s) with
   | Some h => bool_decide (cell_x h = i mod BOARD_SIZE)
               && bool_decide (cell_y h = i / BOARD_SIZE)
   | None => false
   end = true) ∧
  ("food"%string ∈ cellTokens s i ↔
   bool_decide (i mod BOARD_SIZE = cell_x (foodCell s))
   && bool_decide (i / BOARD_SIZE = cell_y (foodCell s)) = true).
Proof.
  unfold cellTokens.
  destruct (isSnakeCell _ _ _);
    destruct (match last (snakeSegments s) with Some _ => _ | None => _ end);
    destruct (_ && _);
    (split; [by apply (bool_decide_unpack _)|]);
    repeat split; try done;
    try (intros _; by apply (bool_decide_unpack _));
    intros Hin; by apply (bool_decide_pack _) in Hin.
Qed.

Lemma isSnakeCell_true s x y :
  isSnakeCell s x y = true ↔ Cell x y ∈ snakeSegments s.
Proof.
  unfold isSnakeCell. rewrite bool_decide_eq_true, snakeSet_occupiedSet.
  apply (occupiedSet_has (snakeSegments s) (Cell x y)).
Qed.

Lemma length_filter_fmap {A B} (f : A → B) (P : B → Prop)
    `{∀ b, Decision (P b)} (l : list A) :
  length (filter (λ a, P (f a)) l) = length (filter P (f <$> l)).
Proof.
  induction l as [|a l IH]; [done|]. simpl.
  rewrite !filter_cons. destruct (decide (P (f a))); simpl; by rewrite IH.
Qed.

(** X14. The view has 400 cells; cell [i] stands for the coordinates
    [(i mod 20, i div 20)], which are on the board; every board cell
    [(x,y)] is shown by cell [20*y + x] and by no other; and no two
    cells carry the same React key. *)
Theorem boardView_covers_board (s : State) :
  length (boardView s) = 400%nat ∧
  (∀ i, 0 ≤ i < 400 →
     boardView s !! Z.to_nat i = Some (cellReactKey i, cellClassName s i) ∧
     inBoard (boardCellAt i)) ∧
  (∀ x y, 0 ≤ x < 20 → 0 ≤ y < 20 →
     0 ≤ 20 * y + x < 400 ∧ boardCellAt (20 * y + x) = Cell x y ∧
     ∀ j, boardCellAt j = Cell x y → j = 20 * y + x) ∧
  NoDup (fst <$> boardView s).
Proof.
  split; [|split; [|split]].
  - unfold boardView. by rewrite length_fmap, length_seqZ.
  - intros i Hi. split; [|by apply boardCellAt_inBoard].
    unfold boardView. rewrite list_lookup_fmap, lookup_seqZ_lt by (unfold BOARD_SIZE; lia).
    simpl. do 3 f_equal; lia.
  - intros x y Hx Hy. split; [lia|].
    pose proof (boardCellAt_index x y Hx) as Hcell. split; [done|].
    intros j Hj. apply boardCellAt_inj. by rewrite Hj.
  - unfold boardView. rewrite <-list_fmap_compose.
    apply (bool_decide_unpack _). vm_compute. exact I.
Qed.

Lemma boardView_covers_board_witness :
  boardCellAt (20 * 19 + 0) = Cell 0 19 ∧
  boardView (initialState emptyStorage) !! 210%nat
  = Some ("10-10"%string, "cell snake head"%string).
Proof.
  destruct (boardView_covers_board (initialState emptyStorage))
    as (_ & Hat & Hcell & _).
  split.
  - apply (Hcell 0 19); lia.
  - apply (Hat 210). lia.
Defined.

(** X15. What the view shows.  A cell has the class "snake" exactly
    when the snake covers its coordinates, "head" exactly when they are
    those of the last segment, "food" exactly when they are those of the
    food, and always "cell"; a "head" cell is a "snake" cell.  When the
    snake lies on the board without repeated cells (as in every state of
    a game) the number of "snake" cells is the length of the snake, and
    when the food is off the snake no cell is both "snake" and
    "food". *)
Theorem boardView_shows_state (s : State) :
  (∀ i, "cell"%string ∈ cellTokens s i) ∧
  (∀ i, "snake"%string ∈ cellTokens s i ↔ boardCellAt i ∈ snakeSegments s) ∧
  (∀ i, "head"%string ∈ cellTokens s i ↔
        last (snakeSegments s) = Some (boardCellAt i)) ∧
  (∀ i, "food"%string ∈ cellTokens s i ↔ foodCell s = boardCellAt i) ∧
  (∀ i, "head"%string ∈ cellTokens s i → "snake"%string ∈ cellTokens s i) ∧
  ((∀ c, c ∈ snakeSegments s → inBoard c) → NoDup (snakeSegments s) →
   length (filter (λ i, "snake"%string ∈ cellTokens s i)
             (seqZ 0 (BOARD_SIZE * BOARD_SIZE)))
   = length (snakeSegments s)) ∧
  (foodCell s ∉ snakeSegments s →
   ∀ i, ¬ ("snake"%string ∈ cellTokens s i ∧ "food"%string ∈ cellTokens s i)).
Proof.
  assert (∀ i, "snake"%string ∈ cellTokens s i ↔ boardCellAt i ∈ snakeSegments s)
    as Hsnake.
  { intros i. destruct (cellTokens_flags s i) as (_ & -> & _).
    apply isSnakeCell_true. }
  assert (∀ i, "head"%string ∈ cellTokens s i ↔
               last (snakeSegments s) = Some (boardCellAt i)) as Hhead.
  { intros i. destruct (cellTokens_flags s i) as (_ & _ & -> & _).
    unfold boardCellAt. destruct (last (snakeSegments s)) as [[hx hy]|]; simpl.
    - rewrite andb_true_iff, !bool_decide_eq_true.
      split; [by intros [-> ->]|by intros [= -> ->]].
    - done. }
  assert (∀ i, "food"%string ∈ cellTokens s i ↔ foodCell s = boardCellAt i)
    as Hfood.
  { intros i. destruct (cellTokens_flags s i) as (_ & _ & _ & ->).
    unfold boardCellAt. destruct (foodCell s) as [fx fy]; simpl.
    rewrite andb_true_iff, !bool_decide_eq_true.
    split; [by intros [-> ->]|by intros [= -> ->]]. }
  split; [intros i; apply cellTokens_flags|].
  split; [done|]. split; [done|]. split; [done|]. split; [|split].
  - intros i Hi%Hhead. apply Hsnake. by apply last_Some_elem_of.
  - intros Hboard Hdup.
    trans (length (filter (λ c, c ∈ snakeSegments s) boardCells)).
    { unfold boardCells.
      rewrite <-(length_filter_fmap boardCellAt (λ c, c ∈ snakeSegments s)).
      f_equal. by apply list_filter_iff. }
    apply Permutation_length, NoDup_Permutation; [|done|].
    + apply NoDup_filter, NoDup_boardCells.
    + intros c. rewrite list_elem_of_filter. split; [by intros [? _]|].
      intros Hc. split; [done|]. by apply elem_of_boardCells, Hboard.
  - intros Hoff i [Hs%Hsnake Hf%Hfood]. by rewrite Hf in Hoff.
Qed.

Lemma boardView_shows_state_witness :
  length (filter (λ i, "snake"%string ∈ cellTokens (freshGame (Cell 5 5) None) i)
            (seqZ 0 (BOARD_SIZE * BOARD_SIZE))) = 2%nat.
Proof.
  refine (proj1 (proj2 (proj2 (proj2 (proj2 (proj2
            (boardView_shows_state (freshGame (Cell 5 5) None))))))) _ _).
  - apply initialSnake_inBoard.
  - apply initialSnake_NoDup.
Defined.

(** ** Score and food within a run *)

(** What a tick does to score, food and draws. *)
Lemma step_score_food rnd fuel r s' :
  step rnd fuel r = Some s' →
  (score s' = score r ∧ foodCell s' = foodCell r ∧
   randomCalls s' = randomCalls r) ∨
  (nextHeadOf r = Some (foodCell r) ∧ score s' = score r + 1 ∧
   (randomCalls r < randomCalls s')%nat ∧
   gameStatus s' = gameStatus r).
Proof.
  intros Hstep. unfold step in Hstep.
  pose proof (commitPending_fields r) as (_ & Hc1 & Hc2 & Hc3 & _ & _ & Hc4).
  pose proof (endGameIn_fields r (commitPending r))
    as (_ & _ & _ & He1 & He2 & He3 & _).
  unfold nextHeadOf.
  destruct (last (snakeSegments r)) as [head|]; [|injection Hstep as <-; auto].
  destruct (hitsWall _);
    [injection Hstep as <-; left; by rewrite He1, He2, He3, Hc1, Hc3, Hc4|].
  destruct (decide _);
    [injection Hstep as <-; left; by rewrite He1, He2, He3, Hc1, Hc3, Hc4|].
  destruct (_ && _) eqn:Heat; simpl in Hstep.
  - destruct (getRandomEmptyCell _ _ _ _) as [[food k]|] eqn:Hplace; [|done].
    injection Hstep as <-. right. simpl.
    apply willEat_true in Heat as ->.
    apply getRandomEmptyCell_Some in Hplace as (j & _ & _ & _ & ->).
    repeat split; [by rewrite Hc3|lia|by rewrite Hc2].
  - injection Hstep as <-. left. simpl. by rewrite Hc1, Hc3, Hc4.
Qed.

(** X17. Within a run the score only grows, and by one point per eaten
    food: a tick either leaves score, food and the number of draws as
    they are, or it has moved the head onto the food, adds exactly one
    point and makes new draws; and through any ticks, direction inputs
    and clicks other than a start the score never decreases. *)
Theorem score_within_run (rnd : nat → Z) (fuel : nat) :
  (∀ r s', step rnd fuel r = Some s' →
     (score s' = score r ∧ foodCell s' = foodCell r ∧
      randomCalls s' = randomCalls r) ∨
     (nextHeadOf r = Some (foodCell r) ∧ score s' = score r + 1 ∧
      (randomCalls r < randomCalls s')%nat ∧ gameStatus s' = gameStatus r)) ∧
  (∀ es s s', Start ∉ es → run rnd fuel es s = Some s' → score s ≤ score s').
Proof.
  split; [intros r s'; apply step_score_food|].
  intros es. induction es as [|e es IH]; intros s s' Hstart; simpl.
  { by intros [= <-]. }
  apply not_elem_of_cons in Hstart as [He Hes].
  destruct (fire rnd fuel e s) as [s1|] eqn:Hfire; [|done]. simpl.
  intros Hrun. specialize (IH s1 s' Hes Hrun).
  assert (score s ≤ score s1); [|lia].
  destruct e; simpl in Hfire; [| |done| |].
  - unfold timerFires in Hfire. destruct (scheduledInterval s).
    + destruct (step_score_food _ _ _ _ Hfire) as [(-> & _)|(_ & -> & _)]; lia.
    + by injection Hfire as <-.
  - injection Hfire as <-. unfold setDirectionImmediate.
    repeat case_match; done.
  - case_decide; by injection Hfire as <-.
  - by injection Hfire as <-.
Qed.

Lemma score_within_run_witness :
  score (freshGame (Cell 11 10) None) ≤ 1.
Proof.
  assert (run zeros 1 [Press Up; Tick; EndButton] (freshGame (Cell 11 10) None)
          = Some (setGameStatus Over (setScore 1 (setRandomCalls 4
              (gameWith [Cell 9 10; Cell 10 10; Cell 11 10] Up (Cell 0 0) None)))))
    as Hrun by reflexivity.
  refine (proj2 (score_within_run zeros 1) _ _ _ _ Hrun).
  rewrite !not_elem_of_cons.
  repeat split; try discriminate. apply not_elem_of_nil.
Defined.

(** * Ticks that start with a buffered turn *)

(** C4. The collision test after a buffered turn.  The state with snake
    [(18,10),(19,10)], direction right and "up" buffered is reached from
    the first render by a start, nine ticks and the input "up".  The
    head moved in the committed direction is (19,9), a free cell of the
    board, yet the tick ends the game with the snake unchanged: the test
    was made on (20,10), the head moved right.  Conversely, with snake
    [(9,0),(10,0)], direction right and "up" buffered, the head moved in
    the committed direction is (10,-1), off the board, yet the tick
    moves the snake to [(10,0),(11,0)] and the game goes on. *)
Theorem step_collision_ignores_committed_direction :
  run zeros 1 (Start :: replicate 9 Tick ++ [Press Up]) (initialState emptyStorage)
  = Some (gameWith [Cell 18 10; Cell 19 10] Right (Cell 0 0) (Some Up)) ∧
  committedNextHead (gameWith [Cell 18 10; Cell 19 10] Right (Cell 0 0) (Some Up))
  = Some (Cell 19 9) ∧
  hitsWall (Cell 19 9) = false ∧
  bool_decide (Cell 19 9 ∈ [Cell 18 10; Cell 19 10]) = false ∧
  (∀ rnd fuel,
     step rnd fuel (gameWith [Cell 18 10; Cell 19 10] Right (Cell 0 0) (Some Up))
     = Some (setGameStatus Over
               (gameWith [Cell 18 10; Cell 19 10] Up (Cell 0 0) None))) ∧
  committedNextHead (gameWith [Cell 9 0; Cell 10 0] Right (Cell 0 5) (Some Up))
  = Some (Cell 10 (-1)) ∧
  hitsWall (Cell 10 (-1)) = true ∧
  (∀ rnd fuel,
     step rnd fuel (gameWith [Cell 9 0; Cell 10 0] Right (Cell 0 5) (Some Up))
     = Some (gameWith [Cell 10 0; Cell 11 0] Up (Cell 0 5) None)).
Proof. repeat split. Qed.

(** C5. Growth after a buffered turn.  The state with the snake
    [(9,10),(10,10)], direction right, "up" buffered and the food at
    (10,9) is reached from the first render by a start and the input
    "up".  The head moved in the committed direction is (10,9), the food
    cell, free and on the board, yet the tick moves the head right to
    (11,10): the snake keeps two cells, the score stays 0 and the food
    stays where it is.  Conversely, with the food at (11,10) the head
    moved in the committed direction, (10,9), is not the food, yet the
    tick eats: three cells and score 1. *)
Theorem step_growth_ignores_committed_direction :
  run tenNineRnd 1 [Start; Press Up] (initialState emptyStorage)
  = Some (gameWith [Cell 9 10; Cell 10 10] Right (Cell 10 9) (Some Up)) ∧
  committedNextHead (gameWith [Cell 9 10; Cell 10 10] Right (Cell 10 9) (Some Up))
  = Some (foodCell (gameWith [Cell 9 10; Cell 10 10] Right (Cell 10 9) (Some Up))) ∧
  hitsWall (Cell 10 9) = false ∧
  bool_decide (Cell 10 9 ∈ [Cell 9 10; Cell 10 10]) = false ∧
  (∀ rnd fuel,
     step rnd fuel (gameWith [Cell 9 10; Cell 10 10] Right (Cell 10 9) (Some Up))
     = Some (gameWith [Cell 10 10; Cell 11 10] Up (Cell 10 9) None)) ∧
  score (gameWith [Cell 10 10; Cell 11 10] Up (Cell 10 9) None) = 0 ∧
  committedNextHead (gameWith [Cell 9 10; Cell 10 10] Right (Cell 11 10) (Some Up))
  = Some (Cell 10 9) ∧
  step zeros 1 (gameWith [Cell 9 10; Cell 10 10] Right (Cell 11 10) (Some Up))
  = Some (setScore 1 (setRandomCalls 4
            (gameWith [Cell 9 10; Cell 10 10; Cell 11 10] Up (Cell 0 0) None))).
Proof. repeat split. Qed.
